(** * gosync: peer reconciliation and convergence loop (main.go)

    A shallow embedding of the node process of [main.go]: the shared
    variables ([fileList], [ignoredNodes], [syncCompleted],
    [syncAttempts]), the HTTP handlers, the per-peer reconciler
    [syncWithPeer], the convergence checker [checkAllNodesInSync] and the
    retry loop of [main].

    Go maps of type [map[string]bool] are [gmap string bool] with Go's
    zero-value lookup.  Go's [int] and [time.Duration] are [Z]; the
    64-bit wrap-around is written out for [syncAttempts++] and for the
    sleep duration, while the counters of the checker, which are bounded
    by [len(peerIPs)] and by the length of a map, are not reduced.  The
    network and the disk are an oracle that answers each outbound call
    from the history of the process so far, so that every sequence of
    answers is covered.  Goroutines are run to completion one at a time:
    the [wg.Wait()] barrier of a round is sequential composition, and the
    goroutine started by [/sync] is kept in a pool until it is scheduled;
    a pass of the checker and a round of the reconciler are not
    interleaved with other writers of [fileList]. *)

From Stdlib Require Import ZArith Lia Ascii.
From stdpp Require Import base gmap strings list fin_maps fin_sets.

Local Open Scope Z_scope.
Set Warnings "-clear-no-such-hyp".

(** ** Go primitives *)

Module Go.

(** Two's complement reduction of a mathematical integer to [int64]. *)
Definition wrap64 (z : Z) : Z := (z + 2 ^ 63) mod 2 ^ 64 - 2 ^ 63.

(** [time.Second], a [time.Duration] counted in nanoseconds. *)
Definition Second : Z := 1000000000.

(** [m[k]] on a [map[string]bool]: a missing key reads as [false]. *)
Definition index (m : gmap string bool) (k : string) : bool :=
  default false (m !! k).

(** [_, ok := m[k]]. *)
Definition has_key (m : gmap string bool) (k : string) : bool :=
  bool_decide (is_Some (m !! k)).

(** [m[k] = true]. *)
Definition store (k : string) (m : gmap string bool) : gmap string bool :=
  <[k := true]> m.

(** [len(m)]. *)
Definition len (m : gmap string bool) : Z := Z.of_nat (size m).

(** The keys visited by [for k := range m].  Go leaves the order
    unspecified; the embedding fixes the order of [map_to_list]. *)
Definition range (m : gmap string bool) : list string := (map_to_list m).*1.

(** [http.StatusOK] and [http.StatusBadRequest]. *)
Definition StatusOK : Z := 200.
Definition StatusBadRequest : Z := 400.

(** [url.Values] and its [Get]: the first value of the key, or the
    empty string. *)
Definition Values := gmap string (list string).

Definition Values_Get (v : Values) (key : string) : string :=
  match v !! key with
  | Some (x :: _) => x
  | _ => ""%string
  end.

End Go.

(** ** Strings of [handleSyncRequest] *)

Module Str.

Definition colon : Ascii.ascii := ":"%char.
Definition lbracket : Ascii.ascii := "["%char.
Definition rbracket : Ascii.ascii := "]"%char.

Definition is_colon (c : Ascii.ascii) : bool := bool_decide (c = colon).

Definition in_brackets (c : Ascii.ascii) : bool :=
  bool_decide (c = lbracket) || bool_decide (c = rbracket).

Fixpoint drop_while (p : Ascii.ascii → bool) (l : list Ascii.ascii)
  : list Ascii.ascii :=
  match l with
  | [] => []
  | c :: l' => if p c then drop_while p l' else l
  end.

(** [if idx := strings.LastIndex(s, ":"); idx != -1 { s = s[:idx] }] *)
Definition cut_last_colon (l : list Ascii.ascii) : list Ascii.ascii :=
  let r := rev l in
  if existsb is_colon r
  then rev (List.tl (drop_while (λ c, negb (is_colon c)) r))
  else l.

(** [strings.Trim(s, "[]")] *)
Definition trim_brackets (l : list Ascii.ascii) : list Ascii.ascii :=
  rev (drop_while in_brackets (rev (drop_while in_brackets l))).

Definition remote_host (remoteAddr : string) : string :=
  String.string_of_list_ascii
    (trim_brackets (cut_last_colon (String.list_ascii_of_string remoteAddr))).

End Str.

(** ** Data model *)

(** A peer's base URL, [fmt.Sprintf("http://%s:%d", ip, port)]. *)
Record PeerURL := mkPeerURL { url_host : string; url_port : Z }.

(** The three endpoints a node calls on a peer. *)
Inductive Endpoint :=
| EpFiles                      (* peerURL + "/files" *)
| EpFile (name : string)       (* "%s/file?name=%s" *)
| EpSync (file : string).      (* "%s/sync?file=%s" *)

(** One outbound [client.Get], with the [Timeout] of the client that
    issues it. *)
Record Request := mkRequest {
  rq_timeout : Z;
  rq_peer : PeerURL;
  rq_endpoint : Endpoint
}.

(** What a [bufio.Scanner] makes of a response body: the lines it yields
    and whether [scanner.Err()] is non-nil afterwards. *)
Record Body := mkBody { body_lines : list string; body_err : bool }.

(** The two results of [client.Get]: [err != nil], or a response. *)
Inductive HttpResult :=
| GetErr
| GetResp (status : Z) (body : Body).

(** The local steps of [downloadFile] after the response is in. *)
Inductive FsOp :=
| OpMkdirAll (filename : string)
| OpCreate (filename : string)
| OpCopy (filename : string).

Inductive DownloadError :=
| ErrGet
| ErrStatus (code : Z)
| ErrMkdirAll
| ErrCreate
| ErrCopy.

(** The goroutine started by [handleSyncRequest]. *)
Record Task := mkTask { task_url : PeerURL; task_file : string }.

(** What the process does that can be seen from outside: its outbound
    calls with their results, its sleeps, and the log lines of
    [ignoreNode], of the loop head and of the checker's summary. *)
Inductive Event :=
| EvGet (rq : Request) (res : HttpResult)
| EvIgnore (ip : string)
| EvAttempt (n : Z)
| EvStatus (total accessible ignored : Z)
| EvSleep (d : Z)
| EvGiveUp (n : Z).

(** The package-level variables, the pool of started goroutines and the
    history. *)
Record World := mkWorld {
  fileList : gmap string bool;
  ignoredNodes : gmap string bool;
  syncCompleted : bool;
  syncAttempts : Z;
  goroutines : list Task;
  trace : list Event
}.

(** Command-line configuration. *)
Record Config := mkConfig {
  peerIPs : list string;
  port : Z;
  syncDelay : Z
}.

(** The environment: the answer to an outbound call, and the outcome of
    a local file operation, given everything that happened before. *)
Record Env := mkEnv {
  net : list Event → Request → HttpResult;
  disk : list Event → FsOp → bool
}.

Definition maxAttempts : Z := 5.

(** An inbound request as the handlers read it: the parsed query and
    [r.RemoteAddr]. *)
Record HttpRequest := mkHttpRequest {
  req_query : Go.Values;
  req_remoteAddr : string
}.

(** What a handler wrote: the status line and the body. *)
Record Response := mkResponse { resp_status : Z; resp_body : string }.

(** [w.Write(b)] with no earlier [WriteHeader]. *)
Definition Write (b : string) : Response := mkResponse Go.StatusOK b.

(** [http.Error(w, msg, code)]: the message followed by a newline. *)
Definition http_Error (msg : string) (code : Z) : Response :=
  mkResponse code (msg +:+ String (Ascii.ascii_of_nat 10) "").

(** ** The state monad of the process *)

Definition M (A : Type) : Type := World → A * World.

Definition ret {A} (a : A) : M A := λ w, (a, w).
Definition bind {A B} (m : M A) (k : A → M B) : M B :=
  λ w, let '(a, w') := m w in k a w'.

Declare Scope proc_scope.
Delimit Scope proc_scope with proc.
Bind Scope proc_scope with M.
Notation "x ← y ; z" := (bind y (λ x, z))
  (at level 20, y at level 100, z at level 200, only parsing) : proc_scope.
Notation "y ;; z" := (bind y (λ _, z))
  (at level 100, z at level 200, only parsing, right associativity)
  : proc_scope.
Local Open Scope proc_scope.

Definition gets {A} (f : World → A) : M A := λ w, (f w, w).
Definition modify (f : World → World) : M unit := λ w, (tt, f w).

Definition with_fileList (f : gmap string bool → gmap string bool) (w : World)
  : World :=
  mkWorld (f (fileList w)) (ignoredNodes w) (syncCompleted w)
          (syncAttempts w) (goroutines w) (trace w).

Definition with_ignoredNodes (f : gmap string bool → gmap string bool)
  (w : World) : World :=
  mkWorld (fileList w) (f (ignoredNodes w)) (syncCompleted w)
          (syncAttempts w) (goroutines w) (trace w).

Definition with_syncAttempts (f : Z → Z) (w : World) : World :=
  mkWorld (fileList w) (ignoredNodes w) (syncCompleted w)
          (f (syncAttempts w)) (goroutines w) (trace w).

Definition with_goroutines (f : list Task → list Task) (w : World) : World :=
  mkWorld (fileList w) (ignoredNodes w) (syncCompleted w)
          (syncAttempts w) (f (goroutines w)) (trace w).

Definition with_trace (f : list Event → list Event) (w : World) : World :=
  mkWorld (fileList w) (ignoredNodes w) (syncCompleted w)
          (syncAttempts w) (goroutines w) (f (trace w)).

Definition log (e : Event) : M unit := modify (with_trace (λ t, t ++ [e])).

(** [for _, x := range l { acc = body x acc }] *)
Fixpoint forRange {A S} (l : list A) (body : A → S → M S) (acc : S) : M S :=
  match l with
  | [] => ret acc
  | x :: l' => acc' ← body x acc; forRange l' body acc'
  end.

(** [for _, x := range l { body x }] *)
Definition forEach {A} (l : list A) (body : A → M unit) : M unit :=
  forRange l (λ x _, body x) tt.

Section Process.

Variable cfg : Config.
Variable env : Env.

(** [client.Get(url)] on a client with the given timeout. *)
Definition clientGet (timeout : Z) (peer : PeerURL) (ep : Endpoint)
  : M HttpResult :=
  let rq := mkRequest timeout peer ep in
  tr ← gets trace;
  let res := net env tr rq in
  log (EvGet rq res);;
  ret res.

Definition fsOp (op : FsOp) : M bool :=
  tr ← gets trace; ret (disk env tr op).

Definition peerURL_of (ip : string) : PeerURL := mkPeerURL ip (port cfg).

(** The scanner loop [peerFiles[scanner.Text()] = true]. *)
Definition scanFiles (lines : list string) : gmap string bool :=
  foldl (λ m line, Go.store line m) ∅ lines.

(** *** Quarantine *)

Definition shouldIgnoreNode (ip : string) : M bool :=
  gets (λ w, Go.index (ignoredNodes w) ip).

Definition ignoreNode (ip : string) : M unit :=
  modify (with_ignoredNodes (Go.store ip));;
  log (EvIgnore ip).

(** *** Convergence checker *)

Definition checkTimeout : Z := 5 * Go.Second.

(** The comparison under [fileListMux.RLock()]: [filesMatch] stays
    true when the lengths agree and no key of [fileList] is missing
    from [peerFiles]. *)
Definition filesMatch (peerFiles fl : gmap string bool) : bool :=
  if negb (Go.len peerFiles =? Go.len fl) then false
  else forallb (λ file, Go.index peerFiles file) (Go.range fl).

(** One iteration of the loop over [peerIPs]; [count] is
    [accessibleNodeCount]. *)
Definition checkPeer (ip : string) (count : Z) : M Z :=
  ignored ← shouldIgnoreNode ip;
  if ignored then ret count
  else
    res ← clientGet checkTimeout (peerURL_of ip) EpFiles;
    match res with
    | GetErr => ignoreNode ip;; ret count
    | GetResp _ body =>
        let peerFiles := scanFiles (body_lines body) in
        if body_err body then ret count
        else
          fl ← gets fileList;
          if filesMatch peerFiles fl then ret (count + 1) else ret count
    end.

Definition checkAllNodesInSync : M bool :=
  let totalNodeCount := Z.of_nat (length (peerIPs cfg)) in
  accessibleNodeCount ← forRange (peerIPs cfg) checkPeer 0;
  ignoredCount ← gets (λ w, Go.len (ignoredNodes w));
  log (EvStatus totalNodeCount accessibleNodeCount ignoredCount);;
  ret (totalNodeCount <=? accessibleNodeCount + ignoredCount).

(** *** Handlers *)

Definition handleCheckSync (r : HttpRequest) : M Response :=
  completed ← gets syncCompleted;
  if completed then ret (Write "COMPLETED") else ret (Write "PENDING").

Definition handleFileList (r : HttpRequest) : M Response :=
  fl ← gets fileList;
  ret (Write (foldr (λ file out, file +:+ String (Ascii.ascii_of_nat 10) out)
                     ""%string (Go.range fl))).

Definition downloadTimeout : Z := 60 * Go.Second.

Definition downloadFile (peer : PeerURL) (filename : string)
  : M (option DownloadError) :=
  res ← clientGet downloadTimeout peer (EpFile filename);
  match res with
  | GetErr => ret (Some ErrGet)
  | GetResp status _ =>
      if negb (status =? Go.StatusOK) then ret (Some (ErrStatus status))
      else
        ok ← fsOp (OpMkdirAll filename);
        if negb ok then ret (Some ErrMkdirAll)
        else
          ok ← fsOp (OpCreate filename);
          if negb ok then ret (Some ErrCreate)
          else
            ok ← fsOp (OpCopy filename);
            if negb ok then ret (Some ErrCopy) else ret None
  end.

(** The body of the goroutine of [handleSyncRequest]. *)
Definition runTask (t : Task) : M unit :=
  err ← downloadFile (task_url t) (task_file t);
  match err with
  | Some _ => ret tt
  | None => modify (with_fileList (Go.store (task_file t)))
  end.

Definition handleSyncRequest (r : HttpRequest) : M Response :=
  let filename := Go.Values_Get (req_query r) "file" in
  if bool_decide (filename = ""%string)
  then ret (http_Error "文件名不能为空" Go.StatusBadRequest)
  else
    exists_ ← gets (λ w, Go.has_key (fileList w) filename);
    if exists_ then ret (Write "文件已存在")
    else
      let remoteIP := Str.remote_host (req_remoteAddr r) in
      let remoteURL := mkPeerURL remoteIP (port cfg) in
      modify (with_goroutines (λ g, g ++ [mkTask remoteURL filename]));;
      ret (Write "开始下载文件").

(** *** Reconciler *)

Definition syncTimeout : Z := 30 * Go.Second.

(** [filesToPush]: one pass over [fileList] under a single read lock. *)
Definition filesToPush (peerFiles fl : gmap string bool) : list string :=
  filter (λ file, Go.index peerFiles file = false) (Go.range fl).

(** [filesToPull]: one pass over [peerFiles], reading [fileList[file]]
    afresh for each key. *)
Definition filesToPull (peerFiles : gmap string bool) : M (list string) :=
  forRange (Go.range peerFiles)
    (λ file acc,
       hasFile ← gets (λ w, Go.index (fileList w) file);
       if hasFile then ret acc else ret (acc ++ [file]))
    [].

Definition pullFile (peer : PeerURL) (file : string) : M unit :=
  err ← downloadFile peer file;
  match err with
  | Some _ => ret tt
  | None => modify (with_fileList (Go.store file))
  end.

Definition notifyPush (peer : PeerURL) (file : string) : M unit :=
  clientGet syncTimeout peer (EpSync file);; ret tt.

Definition syncWithPeer (ip : string) : M unit :=
  let peerURL := peerURL_of ip in
  res ← clientGet syncTimeout peerURL EpFiles;
  match res with
  | GetErr => ret tt
  | GetResp _ body =>
      let peerFiles := scanFiles (body_lines body) in
      if body_err body then ret tt
      else
        fl ← gets fileList;
        let toPush := filesToPush peerFiles fl in
        toPull ← filesToPull peerFiles;
        forEach toPull (pullFile peerURL);;
        forEach toPush (notifyPush peerURL)
  end.

(** *** Round loop *)

Inductive Exit := ExitNoPeers | ExitSynced | ExitGaveUp.

(** The head of the loop body: [syncAttempts++] and its log line. *)
Definition beginAttempt : M unit :=
  modify (with_syncAttempts (λ n, Go.wrap64 (n + 1)));;
  n ← gets syncAttempts;
  log (EvAttempt n).

(** The [for syncAttempts < maxAttempts] loop; [None] when [fuel]
    iterations were not enough to leave it. *)
Fixpoint syncLoop (fuel : nat) : M (option Exit) :=
  match fuel with
  | O => ret None
  | S fuel' =>
      n ← gets syncAttempts;
      if n <? maxAttempts then
        beginAttempt;;
        forEach (peerIPs cfg) syncWithPeer;;
        ok ← checkAllNodesInSync;
        if ok then
          log (EvSleep (Go.wrap64 (syncDelay cfg * Go.Second)));;
          ret (Some ExitSynced)
        else
          log (EvSleep (3 * Go.Second));;
          syncLoop fuel'
      else
        log (EvGiveUp maxAttempts);;
        ret (Some ExitGaveUp)
  end.

(** [main] from the point where the listener is up. *)
Definition main (fuel : nat) : M (option Exit) :=
  if bool_decide (length (peerIPs cfg) = 0%nat) then ret (Some ExitNoPeers)
  else syncLoop fuel.

(** *** The process as a transition system *)

(** The atomic steps that touch the shared variables: the inbound
    requests, a started goroutine being run, and the statements of
    the round loop.  [handleFileDownload] reads the disk only. *)
Inductive Action :=
| ActFileList (r : HttpRequest)
| ActSyncRequest (r : HttpRequest)
| ActCheckSync (r : HttpRequest)
| ActGo (i : nat)
| ActAttempt
| ActSyncWithPeer (ip : string)
| ActCheckAll
| ActSleep (d : Z)
| ActGiveUp.

(** A goroutine of the pool being scheduled. *)
Definition schedule (i : nat) : M unit :=
  g ← gets goroutines;
  match g !! i with
  | Some t => modify (with_goroutines (delete i));; runTask t
  | None => ret tt
  end.

Definition exec (a : Action) : M unit :=
  match a with
  | ActFileList r => handleFileList r;; ret tt
  | ActSyncRequest r => handleSyncRequest r;; ret tt
  | ActCheckSync r => handleCheckSync r;; ret tt
  | ActGo i => schedule i
  | ActAttempt => beginAttempt
  | ActSyncWithPeer ip => syncWithPeer ip
  | ActCheckAll => checkAllNodesInSync;; ret tt
  | ActSleep d => log (EvSleep d)
  | ActGiveUp => log (EvGiveUp maxAttempts)
  end.

Definition run (acts : list Action) : M unit := forEach acts exec.

End Process.

(** The state when the listener comes up: [paths] is what the walk of
    the target directory recorded. *)
Definition initWorld (paths : list string) : World :=
  mkWorld (foldl (λ m p, Go.store p m) ∅ paths) ∅ false 0 [] [].

(** ** Vocabulary of the statements *)

(** A relation between the state before and after that a computation
    maintains, whatever it returns. *)
Definition keeps {A} (R : relation World) (m : M A) : Prop :=
  ∀ w, R w (m w).2.

(** A field that a computation leaves as it was. *)
Definition same {F} (f : World → F) : relation World := λ w w', f w' = f w.

(** A map in which every stored flag is [true], as every map of the
    program is: the only store is [m[k] = true]. *)
Definition flags_true (m : gmap string bool) : Prop :=
  map_Forall (λ _ v, v = true) m.

(** The events a computation added to the history. *)
Definition since (w w' : World) : list Event :=
  drop (length (trace w)) (trace w').

(** The request the checker sends to [ip], and the one the reconciler
    sends. *)
Definition checkRequest (cfg : Config) (ip : string) : Request :=
  mkRequest checkTimeout (peerURL_of cfg ip) EpFiles.

Definition syncRequest (cfg : Config) (ip : string) : Request :=
  mkRequest syncTimeout (peerURL_of cfg ip) EpFiles.

(** A list-files call that was answered, was read to the end and
    reported exactly the paths of [fl]. *)
Definition report_equal (fl : gmap string bool) (e : Event) : Prop :=
  match e with
  | EvGet _ (GetResp _ body) =>
      body_err body = false ∧ list_to_set (body_lines body) = dom fl
  | _ => False
  end.

#[export] Instance report_equal_dec fl e : Decision (report_equal fl e).
Proof. destruct e as [? [|? ?]| | | | |]; simpl; apply _. Defined.

(** The number of such reports in a stretch of history. *)
Definition inSyncReports (fl : gmap string bool) (evs : list Event) : Z :=
  Z.of_nat (length (filter (report_equal fl) evs)).

(** The peers a stretch of history quarantines. *)
Definition ignores (evs : list Event) : list string :=
  omap (λ e, match e with EvIgnore ip => Some ip | _ => None end) evs.

(** The rounds a stretch of history enters. *)
Definition rounds (evs : list Event) : nat :=
  length (omap (λ e, match e with EvAttempt n => Some n | _ => None end) evs).

(** The verdicts of the convergence checks of a stretch of history, read
    off the checker's summary line. *)
Definition verdicts (evs : list Event) : list bool :=
  omap (λ e, match e with
             | EvStatus total accessible ignored =>
                 Some (total <=? accessible + ignored)
             | _ => None
             end) evs.

(** Membership in the quarantine set. *)
Definition quarantined (w : World) (ip : string) : Prop :=
  ip ∈ dom (ignoredNodes w).

(** A computation that only adds events satisfying [P] to the history. *)
Definition adds (P : Event → Prop) : relation World :=
  λ w w', ∃ evs, trace w' = trace w ++ evs ∧ Forall P evs.

(** The calls of the three clients of the program. *)
Definition fetch_call (e : Event) : Prop :=
  ∃ peer name res, e = EvGet (mkRequest downloadTimeout peer (EpFile name)) res.

Definition reconcile_call (e : Event) : Prop :=
  fetch_call e
  ∨ ∃ peer res,
      e = EvGet (mkRequest syncTimeout peer EpFiles) res
      ∨ ∃ file, e = EvGet (mkRequest syncTimeout peer (EpSync file)) res.

Definition check_call (e : Event) : Prop :=
  (∃ peer res, e = EvGet (mkRequest checkTimeout peer EpFiles) res)
  ∨ (∃ ip, e = EvIgnore ip)
  ∨ (∃ total accessible ignored, e = EvStatus total accessible ignored).

(** Events that neither open a round nor report a verdict. *)
Definition quiet (e : Event) : Prop :=
  match e with
  | EvGet _ _ | EvIgnore _ | EvSleep _ | EvGiveUp _ => True
  | EvAttempt _ | EvStatus _ _ _ => False
  end.

(** The quarantine set holds configured peers only, each with flag
    [true]. *)
Definition quarantine_ok (cfg : Config) (w : World) : Prop :=
  dom (ignoredNodes w) ⊆ list_to_set (peerIPs cfg)
  ∧ flags_true (ignoredNodes w).

(** The quarantine set only grows, and stays within the configured
    peers. *)
Definition quarantine_step (cfg : Config) : relation World :=
  λ w w', dom (ignoredNodes w) ⊆ dom (ignoredNodes w')
          ∧ (quarantine_ok cfg w → quarantine_ok cfg w').

Section Relations.

Variable cfg : Config.
Variable env : Env.

(** The three ways one iteration of the checker's loop can go. *)
Inductive CheckStep (ip : string) (count : Z) (w : World)
  : Z → World → list Event → Prop :=
| check_skip :
    Go.index (ignoredNodes w) ip = true →
    CheckStep ip count w count w []
| check_fail :
    Go.index (ignoredNodes w) ip = false →
    net env (trace w) (checkRequest cfg ip) = GetErr →
    CheckStep ip count w count
      (with_trace (λ t, t ++ [EvIgnore ip])
         (with_ignoredNodes (Go.store ip)
            (with_trace (λ t, t ++ [EvGet (checkRequest cfg ip) GetErr]) w)))
      [EvGet (checkRequest cfg ip) GetErr; EvIgnore ip]
| check_report status body :
    Go.index (ignoredNodes w) ip = false →
    net env (trace w) (checkRequest cfg ip) = GetResp status body →
    CheckStep ip count w
      (if negb (body_err body)
          && filesMatch (scanFiles (body_lines body)) (fileList w)
       then count + 1 else count)
      (with_trace
         (λ t, t ++ [EvGet (checkRequest cfg ip) (GetResp status body)]) w)
      [EvGet (checkRequest cfg ip) (GetResp status body)].

(** Every event of an iteration is a probe of [ip], which was not
    quarantined, with the checker's timeout, or the quarantine of [ip]
    right after a failed probe of it. *)
Definition check_events_of (ip : string) (w : World) (evs : list Event)
  : Prop :=
  evs = [] ∨
  Go.index (ignoredNodes w) ip = false
  ∧ (evs = [EvGet (checkRequest cfg ip) GetErr; EvIgnore ip]
     ∨ ∃ status body, evs = [EvGet (checkRequest cfg ip) (GetResp status body)]).

(** A pass over a list of peers, iteration by iteration. *)
Inductive CheckPass : list string → Z → World → Z → World → list Event → Prop :=
| pass_nil c w : CheckPass [] c w c w []
| pass_cons ip l c w c1 w1 e1 c2 w2 e2 :
    CheckStep ip c w c1 w1 e1 →
    CheckPass l c1 w1 c2 w2 e2 →
    CheckPass (ip :: l) c w c2 w2 (e1 ++ e2).

(** What a pass over [l] adds to the history: probes of peers of [l]
    that were not quarantined, sent with the checker's timeout, and
    quarantines, each of a peer whose probe in this pass failed. *)
Definition pass_events (l : list string) (w : World) (evs : list Event)
  : Prop :=
  ∀ e, e ∈ evs →
    ∃ ip, ip ∈ l ∧ Go.index (ignoredNodes w) ip = false
      ∧ ((∃ res, e = EvGet (checkRequest cfg ip) res)
         ∨ (e = EvIgnore ip ∧ EvGet (checkRequest cfg ip) GetErr ∈ evs)).

(** One turn of the loop body up to the verdict of the checker. *)
Definition attempt : M bool :=
  beginAttempt;; forEach (peerIPs cfg) (syncWithPeer cfg env);;
  checkAllNodesInSync cfg env.

(** The third part of C5 as the specification words it: the listing
    calls of a checker pass and of a reconciler round carry one and the
    same timeout. *)
Definition check_reuses_sync_timeout (w : World) (ip : string) : Prop :=
  ∀ rq1 res1 rq2 res2,
    EvGet rq1 res1 ∈ since w (checkAllNodesInSync cfg env w).2 →
    EvGet rq2 res2 ∈ since w (syncWithPeer cfg env ip w).2 →
    rq_endpoint rq1 = EpFiles → rq_endpoint rq2 = EpFiles →
    rq_timeout rq1 = rq_timeout rq2.

End Relations.

(** ** Sample configurations and environments *)

(** One peer, and the same peer listed twice. *)
Definition onePeer : Config := mkConfig ["10.0.0.2"%string] 18283 10.
Definition samePeerTwice : Config :=
  mkConfig ["10.0.0.2"%string; "10.0.0.2"%string] 18283 10.

(** A network on which every call fails, and one on which every call is
    answered with status 200 and the given lines. *)
Definition netDown : Env := mkEnv (λ _ _, GetErr) (λ _ _, true).
Definition netServing (lines : list string) : Env :=
  mkEnv (λ _ _, GetResp 200 (mkBody lines false)) (λ _ _, true).

(** A request without query parameters. *)
Definition bareRequest : HttpRequest := mkHttpRequest ∅ "10.0.0.2:40000".

(** ** Further functions of [main.go] *)

(** The [bufio.Scanner] that both list-files readers run over a response
    body, with the default split function [bufio.ScanLines]. *)
Module Scan.

Definition newline : Ascii.ascii := Ascii.ascii_of_nat 10.
Definition cr : Ascii.ascii := Ascii.ascii_of_nat 13.

(** [bufio.MaxScanTokenSize]: a line that reaches this many bytes
    before its newline ends the scan with [ErrTooLong]. *)
Definition MaxScanTokenSize : Z := 64 * 1024.

(** [dropCR]: one trailing carriage return is dropped. *)
Fixpoint dropCR (s : string) : string :=
  match s with
  | EmptyString => EmptyString
  | String c s' =>
      match s' with
      | EmptyString => if bool_decide (c = cr) then EmptyString else s
      | String _ _ => String c (dropCR s')
      end
  end.

(** The loop [for scanner.Scan() { ... scanner.Text() ... }] over a body
    that arrives whole; [cur] is the line read so far.  With the buffer
    full and more input to come the scan ends with [ErrTooLong]; at the
    end of input what is left in the buffer is the final line, unless it
    is empty. *)
Fixpoint scan (cur : string) (s : string) : Body :=
  match s with
  | EmptyString =>
      if MaxScanTokenSize <? Z.of_nat (String.length cur) then mkBody [] true
      else
        mkBody (if bool_decide (cur = EmptyString) then [] else [dropCR cur])
               false
  | String c s' =>
      if MaxScanTokenSize <=? Z.of_nat (String.length cur) then mkBody [] true
      else if bool_decide (c = newline) then
        let rest := scan EmptyString s' in
        mkBody (dropCR cur :: body_lines rest) (body_err rest)
      else scan (cur +:+ String c EmptyString) s'
  end.

Definition scanText (s : string) : Body := scan EmptyString s.

(** The last byte of a string. *)
Fixpoint last_byte (s : string) : option Ascii.ascii :=
  match s with
  | EmptyString => None
  | String c s' =>
      match s' with
      | EmptyString => Some c
      | String _ _ => last_byte s'
      end
  end.

(** Whether a byte occurs in a string. *)
Fixpoint has_byte (b : Ascii.ascii) (s : string) : bool :=
  match s with
  | EmptyString => false
  | String c s' => bool_decide (c = b) || has_byte b s'
  end.

End Scan.

(** A path that survives a line of a [/files] body: no newline in it, no
    carriage return at its end, and shorter than the scanner's token
    limit. *)
Definition line_safe (path : string) : Prop :=
  Scan.has_byte Scan.newline path = false
  ∧ Scan.last_byte path ≠ Some Scan.cr
  ∧ Z.of_nat (String.length path) < Scan.MaxScanTokenSize.

(** The [-peers] flag as [main] reads it. *)
Module Flags.

Definition comma : Ascii.ascii := ","%char.

(** [strings.Split(s, ",")]. *)
Fixpoint Split (s : string) : list string :=
  match s with
  | EmptyString => [EmptyString]
  | String c s' =>
      if bool_decide (c = comma) then EmptyString :: Split s'
      else
        match Split s' with
        | x :: xs => String c x :: xs
        | [] => [String c EmptyString]
        end
  end.

(** [strings.Join(l, ",")]. *)
Fixpoint Join (l : list string) : string :=
  match l with
  | [] => EmptyString
  | [x] => x
  | x :: l' => x +:+ String comma (Join l')
  end.

(** [if peers != "" { peerIPs = strings.Split(peers, ",") }] *)
Definition parsePeers (peers : string) : list string :=
  if bool_decide (peers = EmptyString) then [] else Split peers.

(** The configuration [main] runs with, from the parsed flags. *)
Definition config (peers : string) (port delay : Z) : Config :=
  mkConfig (parsePeers peers) port delay.

End Flags.

(** The number of commas of a string. *)
Fixpoint commas (s : string) : nat :=
  match s with
  | EmptyString => 0
  | String c s' => (if bool_decide (c = Flags.comma) then 1 else 0) + commas s'
  end.

(** The requests of a stretch of history, in order. *)
Definition calls (evs : list Event) : list Request :=
  omap (λ e, match e with EvGet rq _ => Some rq | _ => None end) evs.

(** The inventory only grows, and keeps storing [true] only. *)
Definition inventory_step : relation World :=
  λ w w', dom (fileList w) ⊆ dom (fileList w')
          ∧ (flags_true (fileList w) → flags_true (fileList w')).

(** An environment in which every file fetch is answered with status
    200 and every local file operation succeeds. *)
Definition serves_files (env : Env) : Prop :=
  (∀ tr peer name, ∃ body,
      net env tr (mkRequest downloadTimeout peer (EpFile name))
      = GetResp Go.StatusOK body)
  ∧ (∀ tr op, disk env tr op = true).

(** An environment in which every outbound call fails. *)
Definition unreachable (env : Env) : Prop :=
  ∀ tr rq, net env tr rq = GetErr.

(** The requests of the reconciler and of the [/sync] goroutine. *)
Definition fetchRequest (peer : PeerURL) (file : string) : Request :=
  mkRequest downloadTimeout peer (EpFile file).

Definition notifyRequest (peer : PeerURL) (file : string) : Request :=
  mkRequest syncTimeout peer (EpSync file).

(** Whether a fetch of [file] from [peer], issued after the history
    [tr], gets status 200 and passes the three local file operations. *)
Definition fetch_succeeds (env : Env) (tr : list Event) (peer : PeerURL)
  (file : string) : bool :=
  match net env tr (fetchRequest peer file) with
  | GetErr => false
  | GetResp status body =>
      let tr' := tr ++ [EvGet (fetchRequest peer file) (GetResp status body)] in
      (status =? Go.StatusOK)
      && disk env tr' (OpMkdirAll file)
      && disk env tr' (OpCreate file)
      && disk env tr' (OpCopy file)
  end.

(** The addresses whose listing call by the checker failed, in a
    stretch of history.  Only the checker sends listing calls with its
    own timeout. *)
Definition failed_checks (evs : list Event) : list string :=
  omap (λ e, match e with
             | EvGet (mkRequest timeout peer EpFiles) GetErr =>
                 if timeout =? checkTimeout then Some (url_host peer) else None
             | _ => None
             end) evs.

(** Every address with a failed check in the history is quarantined,
    and no address has two. *)
Definition checked_once (w : World) : Prop :=
  NoDup (failed_checks (trace w))
  ∧ ∀ ip, ip ∈ failed_checks (trace w) → Go.index (ignoredNodes w) ip = true.

(** An event that is not a failed check. *)
Definition no_failed_check (e : Event) : Prop := failed_checks [e] = [].

(** ** The convergence pass in the words of the specification *)

(** The pass as the specification describes it, over sets of paths and
    of peers: for each configured peer not already quarantined, list its
    files with the short timeout; on failure quarantine it; on success
    compare the snapshot with the local inventory and count the peer as
    in sync if they are equal.  The code is compared with it below. *)
Module Spec.

(** What a pass yields: the number of peers found in sync, the
    quarantine set and the history it leaves. *)
Record Pass := mkPass {
  inSync : Z;
  quarantine : gset string;
  history : list Event
}.

(** "Same number of paths and every local path present in the peer's
    snapshot", for a listing that was read to the end. *)
Definition equal_snapshot (inventory : gset string) (body : Body) : Prop :=
  body_err body = false
  ∧ size (list_to_set (body_lines body) : gset string) = size inventory
  ∧ inventory ⊆ list_to_set (body_lines body).

Fixpoint pass (cfg : Config) (env : Env) (peers : list string)
  (inventory quarantined : gset string) (past : list Event) : Pass :=
  match peers with
  | [] => mkPass 0 quarantined past
  | peer :: rest =>
      if decide (peer ∈ quarantined) then
        pass cfg env rest inventory quarantined past
      else
        let rq := checkRequest cfg peer in
        match net env past rq with
        | GetErr =>
            pass cfg env rest inventory ({[peer]} ∪ quarantined)
                 (past ++ [EvGet rq GetErr; EvIgnore peer])
        | GetResp status body =>
            let p := pass cfg env rest inventory quarantined
                          (past ++ [EvGet rq (GetResp status body)]) in
            mkPass ((if decide (equal_snapshot inventory body) then 1 else 0)
                    + inSync p)
                   (quarantine p) (history p)
        end
  end.

End Spec.

(** ** Errors of [client.Get] that are not connection failures *)

(** [client.Get] parses the URL before it connects, and [url.Parse]
    refuses a host with a space in it ([InvalidHostError]): such a call
    fails without any connection being tried. *)
Definition url_refuses_host (host : string) : bool :=
  Scan.has_byte " "%char host.

(** A network that fails exactly the calls whose URL does not parse, and
    answers every other call with status 200 and the given lines. *)
Definition netParsing (lines : list string) : Env :=
  mkEnv (λ _ rq, if url_refuses_host (url_host (rq_peer rq)) then GetErr
                 else GetResp 200 (mkBody lines false))
        (λ _ _, true).

(** A peer list whose one entry has a leading space, as
    [-peers " 10.0.0.3"] gives it. *)
Definition spacedPeer : Config := mkConfig [" 10.0.0.3"%string] 18283 10.

(** Two peers: the first entry has a leading space and its URL does not
    parse, the second is well formed. *)
Definition twoPeers : Config :=
  mkConfig [" 10.0.0.3"%string; "10.0.0.2"%string] 18283 10.

(** C4 as the specification words it, in the least it asks: a peer
    that a pass newly quarantines had a list-files call of the pass
    fail after a connection was tried, so with a URL that parses. *)
Definition quarantine_needs_connection_failure (cfg : Config) (env : Env)
  (w : World) : Prop :=
  ∀ p, let w' := (checkAllNodesInSync cfg env w).2 in
    quarantined w' p → ¬ quarantined w p →
    EvGet (checkRequest cfg p) GetErr ∈ since w w'
    ∧ url_refuses_host (url_host (rq_peer (checkRequest cfg p))) = false.

(** ** Running the monad *)

Lemma bind_run {A B} (m : M A) (k : A → M B) (w : World) :
  bind m k w = k (m w).1 (m w).2.
Proof. unfold bind. by destruct (m w). Qed.

Lemma forRange_cons {A S} (x : A) (l : list A) (body : A → S → M S) (s : S)
  (w : World) :
  forRange (x :: l) body s w = forRange l body (body x s w).1 (body x s w).2.
Proof. simpl. by rewrite bind_run. Qed.

Lemma forRange_app {A S} (l1 l2 : list A) (body : A → S → M S) (s : S)
  (w : World) :
  forRange (l1 ++ l2) body s w
  = forRange l2 body (forRange l1 body s w).1 (forRange l1 body s w).2.
Proof.
  revert s w. induction l1 as [|x l1 IH]; intros s w; [done|].
  rewrite <- app_comm_cons, !forRange_cons. apply IH.
Qed.

#[export] Instance same_preorder {F} (f : World → F) : PreOrder (same f).
Proof. split; unfold same; [done | congruence]. Qed.

Section Keeps.

Context (R : relation World) `{!PreOrder R}.

Lemma keeps_ret {A} (a : A) : keeps R (ret a).
Proof. intros w. simpl. reflexivity. Qed.

Lemma keeps_gets {A} (f : World → A) : keeps R (gets f).
Proof. intros w. simpl. reflexivity. Qed.

Lemma keeps_modify (f : World → World) :
  (∀ w, R w (f w)) → keeps R (modify f).
Proof. intros H w. apply H. Qed.

Lemma keeps_bind {A B} (m : M A) (k : A → M B) :
  keeps R m → (∀ a, keeps R (k a)) → keeps R (bind m k).
Proof.
  intros Hm Hk w. rewrite bind_run. etrans; [apply Hm | apply Hk].
Qed.

Lemma keeps_forRange {A S} (l : list A) (body : A → S → M S) (s : S) :
  (∀ x s, keeps R (body x s)) → keeps R (forRange l body s).
Proof.
  intros Hb. revert s. induction l as [|x l IH]; intros s.
  - apply keeps_ret.
  - simpl. apply keeps_bind; [apply Hb | apply IH].
Qed.

Lemma keeps_forEach {A} (l : list A) (body : A → M unit) :
  (∀ x, keeps R (body x)) → keeps R (forEach l body).
Proof. intros Hb. apply keeps_forRange. intros x _. apply Hb. Qed.

End Keeps.

(** Breaks a computation into its primitive steps. *)
Ltac keeps_step :=
  lazymatch goal with
  | |- keeps _ (ret _) => apply keeps_ret; tc_solve
  | |- keeps _ (gets _) => apply keeps_gets; tc_solve
  | |- keeps _ (forEach _ _) => apply keeps_forEach; [tc_solve | intros ?]
  | |- keeps _ (forRange _ _ _) => apply keeps_forRange; [tc_solve | intros ? ?]
  | |- keeps _ (bind _ _) => apply keeps_bind; [tc_solve | | intros ?]
  | |- keeps _ (modify _) => apply keeps_modify; intros ?
  | |- keeps _ (match _ with _ => _ end) => case_match
  end.

(** Unfolds the functions of the program down to the primitives. *)
Ltac unfold_program :=
  unfold schedule, runTask, beginAttempt, handleFileList,
    handleSyncRequest, handleCheckSync, syncWithPeer, checkAllNodesInSync,
    checkPeer, shouldIgnoreNode, ignoreNode, pullFile, notifyPush,
    downloadFile, filesToPull, clientGet, fsOp, log.

Ltac keeps_tac :=
  repeat (cbv zeta; keeps_step); try (unfold same; simpl; done).

(** ** Snapshots and the comparison *)

Lemma flags_true_empty : flags_true ∅.
Proof. apply map_Forall_empty. Qed.

Lemma flags_true_store (k : string) (m : gmap string bool) :
  flags_true m → flags_true (Go.store k m).
Proof. intros H. apply map_Forall_insert_2; done. Qed.

Lemma flags_true_foldl (l : list string) (m : gmap string bool) :
  flags_true m → flags_true (foldl (λ m p, Go.store p m) m l).
Proof.
  revert m. induction l as [|x l IH]; intros m H; [done|].
  simpl. apply IH, flags_true_store, H.
Qed.

Lemma index_true_elem_of_dom (m : gmap string bool) (k : string) :
  Go.index m k = true → k ∈ dom m.
Proof.
  unfold Go.index. intros H. apply elem_of_dom.
  destruct (m !! k); [eauto | done].
Qed.

Lemma flags_true_index (m : gmap string bool) (k : string) :
  flags_true m → Go.index m k = true ↔ k ∈ dom m.
Proof.
  intros H. split; [apply index_true_elem_of_dom|].
  intros [v Hv]%elem_of_dom. unfold Go.index. rewrite Hv. simpl.
  by apply (H k v).
Qed.

Lemma has_key_dom (m : gmap string bool) (k : string) :
  Go.has_key m k = true ↔ k ∈ dom m.
Proof. unfold Go.has_key. rewrite bool_decide_eq_true. by rewrite elem_of_dom. Qed.

Lemma dom_store (k : string) (m : gmap string bool) :
  dom (Go.store k m) = {[k]} ∪ dom m.
Proof. apply dom_insert_L. Qed.

Lemma index_store (k k' : string) (m : gmap string bool) :
  Go.index (Go.store k m) k' = bool_decide (k = k') || Go.index m k'.
Proof.
  unfold Go.index, Go.store. rewrite lookup_insert.
  case_decide; [by rewrite bool_decide_eq_true_2|].
  by rewrite bool_decide_eq_false_2.
Qed.

Lemma elem_of_range (m : gmap string bool) (k : string) :
  k ∈ Go.range m ↔ k ∈ dom m.
Proof.
  unfold Go.range. rewrite list_elem_of_fmap, elem_of_dom. split.
  - intros [[k' v] [-> H]]. apply elem_of_map_to_list in H. eauto.
  - intros [v H]. exists (k, v). split; [done|]. by apply elem_of_map_to_list.
Qed.

Lemma NoDup_range (m : gmap string bool) : NoDup (Go.range m).
Proof. apply NoDup_fst_map_to_list. Qed.

Lemma dom_foldl_store (l : list string) (m : gmap string bool) :
  dom (foldl (λ m p, Go.store p m) m l) = list_to_set l ∪ dom m.
Proof.
  revert m. induction l as [|x l IH]; intros m; simpl.
  - set_solver.
  - rewrite IH, dom_store. set_solver.
Qed.

Lemma scanFiles_dom (lines : list string) :
  dom (scanFiles lines) = list_to_set lines.
Proof. unfold scanFiles. rewrite dom_foldl_store. set_solver. Qed.

Lemma scanFiles_flags (lines : list string) : flags_true (scanFiles lines).
Proof. apply flags_true_foldl, flags_true_empty. Qed.

Lemma len_dom (m : gmap string bool) : Go.len m = Z.of_nat (size (dom m)).
Proof. unfold Go.len. by rewrite size_dom. Qed.

(** The comparison of the checker, for a map [peerFiles] whose flags are
    all [true]. *)
Lemma filesMatch_true (peerFiles fl : gmap string bool) :
  flags_true peerFiles →
  filesMatch peerFiles fl = true
  ↔ size peerFiles = size fl ∧ ∀ file, file ∈ dom fl → file ∈ dom peerFiles.
Proof.
  intros Hp. unfold filesMatch, Go.len.
  destruct (Z.eqb_spec (Z.of_nat (size peerFiles)) (Z.of_nat (size fl)))
    as [Heq|Hne]; simpl.
  - rewrite forallb_forall. split.
    + intros H. split; [lia|]. intros file Hin.
      apply (flags_true_index _ _ Hp), H, list_elem_of_In, elem_of_range, Hin.
    + intros [_ H] file Hin. apply (flags_true_index _ _ Hp), H.
      by apply elem_of_range, list_elem_of_In.
  - split; [done|]. intros [H _]. lia.
Qed.

(** Equal cardinality and inclusion is equality of the two sets of
    paths. *)
Lemma filesMatch_set_eq (peerFiles fl : gmap string bool) :
  flags_true peerFiles →
  filesMatch peerFiles fl = true ↔ dom peerFiles = dom fl.
Proof.
  intros Hp. rewrite (filesMatch_true _ _ Hp). split.
  - intros [Hsz Hsub]. symmetry. apply set_subseteq_size_eq.
    + intros x. apply Hsub.
    + rewrite !size_dom. lia.
  - intros Heq. split; [by rewrite <- !(size_dom (D := gset string)), Heq|].
    intros file. by rewrite Heq.
Qed.

(** ** History bookkeeping *)

Lemma since_app (w w' : World) (evs : list Event) :
  trace w' = trace w ++ evs → since w w' = evs.
Proof. intros H. unfold since. by rewrite H, drop_app_length. Qed.

Lemma inSyncReports_app fl (e1 e2 : list Event) :
  inSyncReports fl (e1 ++ e2) = inSyncReports fl e1 + inSyncReports fl e2.
Proof. unfold inSyncReports. rewrite filter_app, length_app. lia. Qed.

Lemma ignores_app (e1 e2 : list Event) :
  ignores (e1 ++ e2) = ignores e1 ++ ignores e2.
Proof. apply omap_app. Qed.

Lemma rounds_app (e1 e2 : list Event) :
  rounds (e1 ++ e2) = (rounds e1 + rounds e2)%nat.
Proof. unfold rounds. by rewrite omap_app, length_app. Qed.

Lemma verdicts_app (e1 e2 : list Event) :
  verdicts (e1 ++ e2) = verdicts e1 ++ verdicts e2.
Proof. apply omap_app. Qed.

(** ** The convergence checker *)

Section Checker.

Context (cfg : Config) (env : Env).

Lemma checkPeer_step (ip : string) (count : Z) (w : World) :
  ∃ evs, CheckStep cfg env ip count w (checkPeer cfg env ip count w).1
                   (checkPeer cfg env ip count w).2 evs.
Proof.
  unfold checkPeer, shouldIgnoreNode. rewrite bind_run. simpl.
  destruct (Go.index (ignoredNodes w) ip) eqn:Hig.
  { eexists. by apply check_skip. }
  unfold clientGet. rewrite !bind_run. simpl.
  fold (checkRequest cfg ip).
  destruct (net env (trace w) (checkRequest cfg ip)) as [|st body] eqn:Hnet.
  { eexists. unfold ignoreNode. rewrite !bind_run. simpl.
    by apply check_fail. }
  eexists. pose proof (check_report cfg env ip count w st body Hig Hnet) as H.
  destruct (body_err body); simpl in *; [exact H|].
  rewrite bind_run. simpl.
  by destruct (filesMatch _ _).
Qed.

Lemma CheckStep_trace ip c w c' w' evs :
  CheckStep cfg env ip c w c' w' evs → trace w' = trace w ++ evs.
Proof. destruct 1; simpl; by rewrite ?app_nil_r, <- ?app_assoc. Qed.

Lemma CheckStep_frame ip c w c' w' evs :
  CheckStep cfg env ip c w c' w' evs →
  fileList w' = fileList w ∧ syncCompleted w' = syncCompleted w
  ∧ syncAttempts w' = syncAttempts w ∧ goroutines w' = goroutines w.
Proof. by destruct 1. Qed.

Lemma CheckStep_ignored ip c w c' w' evs :
  CheckStep cfg env ip c w c' w' evs →
  ignoredNodes w' = foldl (λ m p, Go.store p m) (ignoredNodes w) (ignores evs).
Proof. by destruct 1. Qed.

Lemma CheckStep_count ip c w c' w' evs :
  CheckStep cfg env ip c w c' w' evs → c' = c + inSyncReports (fileList w) evs.
Proof.
  destruct 1 as [?|? ?|st body ? ?]; unfold inSyncReports; simpl; try lia.
  pose proof (filesMatch_set_eq (scanFiles (body_lines body)) (fileList w)
                (scanFiles_flags _)) as Hm.
  rewrite scanFiles_dom in Hm.
  rewrite filter_cons, filter_nil.
  destruct (decide (report_equal (fileList w)
                      (EvGet (checkRequest cfg ip) (GetResp st body))))
    as [[Herr Heq]|Hno]; simpl in *.
  - rewrite Herr. simpl. apply Hm in Heq. rewrite Heq. lia.
  - destruct (body_err body) eqn:Herr; simpl; [lia|].
    destruct (filesMatch _ _) eqn:Hf; [|lia].
    exfalso. apply Hno. split; [done | by apply Hm].
Qed.

Lemma CheckStep_events ip c w c' w' evs :
  CheckStep cfg env ip c w c' w' evs → check_events_of cfg ip w evs.
Proof.
  destruct 1; [by left | right; split; [done | by left]
              | right; split; [done | right; eauto]].
Qed.

Lemma forRange_checkPass (l : list string) (c : Z) (w : World) :
  ∃ evs, CheckPass cfg env l c w (forRange l (checkPeer cfg env) c w).1
                   (forRange l (checkPeer cfg env) c w).2 evs.
Proof.
  revert c w. induction l as [|ip l IH]; intros c w.
  - eexists. apply pass_nil.
  - rewrite forRange_cons.
    destruct (checkPeer_step ip c w) as [e1 H1].
    destruct (IH (checkPeer cfg env ip c w).1 (checkPeer cfg env ip c w).2)
      as [e2 H2].
    eexists. eapply pass_cons; eauto.
Qed.

Lemma CheckPass_trace l c w c' w' evs :
  CheckPass cfg env l c w c' w' evs → trace w' = trace w ++ evs.
Proof.
  induction 1 as [|ip l c w c1 w1 e1 c2 w2 e2 Hs _ IH]; [by rewrite app_nil_r|].
  rewrite IH, (CheckStep_trace _ _ _ _ _ _ Hs). by rewrite app_assoc.
Qed.

Lemma CheckPass_frame l c w c' w' evs :
  CheckPass cfg env l c w c' w' evs →
  fileList w' = fileList w ∧ syncCompleted w' = syncCompleted w
  ∧ syncAttempts w' = syncAttempts w ∧ goroutines w' = goroutines w.
Proof.
  induction 1 as [|ip l c w c1 w1 e1 c2 w2 e2 Hs _ IH]; [done|].
  apply CheckStep_frame in Hs. destruct Hs as (<- & <- & <- & <-). exact IH.
Qed.

Lemma CheckPass_ignored l c w c' w' evs :
  CheckPass cfg env l c w c' w' evs →
  ignoredNodes w' = foldl (λ m p, Go.store p m) (ignoredNodes w) (ignores evs).
Proof.
  induction 1 as [|ip l c w c1 w1 e1 c2 w2 e2 Hs _ IH]; [done|].
  rewrite ignores_app, foldl_app, IH.
  by rewrite (CheckStep_ignored _ _ _ _ _ _ Hs).
Qed.

Lemma CheckPass_count l c w c' w' evs :
  CheckPass cfg env l c w c' w' evs → c' = c + inSyncReports (fileList w) evs.
Proof.
  induction 1 as [|ip l c w c1 w1 e1 c2 w2 e2 Hs _ IH]; [unfold inSyncReports; simpl; lia|].
  rewrite inSyncReports_app, IH, (CheckStep_count _ _ _ _ _ _ Hs).
  apply CheckStep_frame in Hs. destruct Hs as (<- & _). lia.
Qed.

Lemma CheckStep_index_mono ip c w c' w' evs (p : string) :
  CheckStep cfg env ip c w c' w' evs →
  Go.index (ignoredNodes w) p = true → Go.index (ignoredNodes w') p = true.
Proof.
  destruct 1; simpl; try done.
  intros Hp. rewrite index_store, Hp. apply orb_true_r.
Qed.

Lemma CheckPass_events l c w c' w' evs :
  CheckPass cfg env l c w c' w' evs → pass_events cfg l w evs.
Proof.
  induction 1 as [|ip l c w c1 w1 e1 c2 w2 e2 Hs _ IH]; intros e He.
  { by apply elem_of_nil in He. }
  apply elem_of_app in He as [He|He].
  - exists ip. split; [left|].
    destruct (CheckStep_events _ _ _ _ _ _ Hs) as [->|[Hig [->|(st & b & ->)]]].
    + by apply elem_of_nil in He.
    + split; [done|]. set_solver.
    + split; [done|]. set_solver.
  - destruct (IH e He) as (p & Hp & Hig & Hcase). exists p.
    split; [by right|]. split.
    + destruct (Go.index (ignoredNodes w) p) eqn:Hw; [|done].
      by rewrite (CheckStep_index_mono _ _ _ _ _ _ p Hs Hw) in Hig.
    + destruct Hcase as [?|[-> Hin]]; [by left | right].
      split; [done|]. apply elem_of_app. by right.
Qed.

End Checker.

Section CheckerProperties.

Context (cfg : Config) (env : Env).

Lemma checkAllNodesInSync_pass (w : World) :
  ∃ c w1 evs,
    CheckPass cfg env (peerIPs cfg) 0 w c w1 evs
    ∧ let total := Z.of_nat (length (peerIPs cfg)) in
      let ign := Go.len (ignoredNodes w1) in
      checkAllNodesInSync cfg env w
      = (total <=? c + ign,
         with_trace (λ t, t ++ [EvStatus total c ign]) w1).
Proof.
  destruct (forRange_checkPass cfg env (peerIPs cfg) 0 w) as [evs Hp].
  eexists _, _, evs. split; [exact Hp|].
  unfold checkAllNodesInSync. rewrite !bind_run. simpl.
  by destruct (forRange _ _ _ _).
Qed.

(** The verdict of a pass, in terms of what the pass added to the
    history and of the quarantine set it left. *)
Lemma checkAllNodesInSync_verdict (w : World) :
  let r := checkAllNodesInSync cfg env w in
  r.1 = true
  ↔ inSyncReports (fileList w) (since w r.2)
    + Z.of_nat (size (dom (ignoredNodes r.2)))
    >= Z.of_nat (length (peerIPs cfg)).
Proof.
  destruct (checkAllNodesInSync_pass w) as (c & w1 & evs & Hp & Heq).
  simpl in *. rewrite Heq. simpl.
  pose proof (CheckPass_trace _ _ _ _ _ _ _ _ Hp) as Htr.
  pose proof (CheckPass_count _ _ _ _ _ _ _ _ Hp) as Hc.
  rewrite (since_app w _ (evs ++ [EvStatus (Z.of_nat (length (peerIPs cfg))) c
                                     (Go.len (ignoredNodes w1))])).
  2:{ simpl. rewrite Htr. by rewrite app_assoc. }
  rewrite inSyncReports_app, <- len_dom, Z.leb_le.
  unfold inSyncReports at 2. simpl. lia.
Qed.

(** The probes of a pass go to configured peers that were not
    quarantined when the pass began. *)
Lemma checkAllNodesInSync_probes (w : World) (rq : Request) (res : HttpResult) :
  EvGet rq res ∈ since w (checkAllNodesInSync cfg env w).2 →
  ∃ ip, ip ∈ peerIPs cfg ∧ Go.index (ignoredNodes w) ip = false
        ∧ rq = checkRequest cfg ip.
Proof.
  destruct (checkAllNodesInSync_pass w) as (c & w1 & evs & Hp & Heq).
  simpl in *. rewrite Heq. simpl.
  pose proof (CheckPass_trace _ _ _ _ _ _ _ _ Hp) as Htr.
  pose proof (CheckPass_events _ _ _ _ _ _ _ _ Hp) as Hev.
  rewrite (since_app w _ (evs ++ [EvStatus (Z.of_nat (length (peerIPs cfg))) c
                                     (Go.len (ignoredNodes w1))])).
  2:{ simpl. rewrite Htr. by rewrite app_assoc. }
  intros [Hin|Hin%list_elem_of_singleton]%elem_of_app; [|done].
  destruct (Hev _ Hin) as (ip & Hip & Hig & [[res' Hcase]|[Hcase _]]);
    [|done].
  exists ip. by simplify_eq.
Qed.

Lemma Spec_pass_cons (peer : string) (rest : list string)
  (inventory quarantined : gset string) (past : list Event) :
  Spec.pass cfg env (peer :: rest) inventory quarantined past
  = if decide (peer ∈ quarantined) then
      Spec.pass cfg env rest inventory quarantined past
    else
      match net env past (checkRequest cfg peer) with
      | GetErr =>
          Spec.pass cfg env rest inventory ({[peer]} ∪ quarantined)
            (past ++ [EvGet (checkRequest cfg peer) GetErr; EvIgnore peer])
      | GetResp status body =>
          let p := Spec.pass cfg env rest inventory quarantined
                     (past ++ [EvGet (checkRequest cfg peer)
                                 (GetResp status body)]) in
          Spec.mkPass
            ((if decide (Spec.equal_snapshot inventory body) then 1 else 0)
             + Spec.inSync p)
            (Spec.quarantine p) (Spec.history p)
      end.
Proof. reflexivity. Qed.

(** The comparison of the code against the one of the specification. *)
Lemma filesMatch_equal_snapshot (body : Body) (fl : gmap string bool) :
  negb (body_err body) && filesMatch (scanFiles (body_lines body)) fl = true
  ↔ Spec.equal_snapshot (dom fl) body.
Proof.
  unfold Spec.equal_snapshot.
  rewrite andb_true_iff, negb_true_iff,
    (filesMatch_true _ _ (scanFiles_flags (body_lines body))).
  rewrite <- !(size_dom (D := gset string)), scanFiles_dom. done.
Qed.

(** The loop of the checker refines the pass of the specification. *)
Lemma CheckPass_refines l c w c' w' evs :
  CheckPass cfg env l c w c' w' evs →
  flags_true (ignoredNodes w) →
  let p := Spec.pass cfg env l (dom (fileList w)) (dom (ignoredNodes w))
             (trace w) in
  c' = c + Spec.inSync p
  ∧ dom (ignoredNodes w') = Spec.quarantine p
  ∧ trace w' = Spec.history p.
Proof.
  induction 1 as [|ip l c w c1 w1 e1 c2 w2 e2 Hs _ IH]; intros Hfl.
  { simpl. split; [lia | done]. }
  cbv zeta in *. rewrite Spec_pass_cons.
  inversion Hs as [Hig|Hig Hnet|st b Hig Hnet]; subst.
  - rewrite decide_True by (by apply index_true_elem_of_dom).
    by apply IH.
  - rewrite decide_False
      by (intros Hin; apply (flags_true_index _ _ Hfl) in Hin; congruence).
    rewrite Hnet. simpl in IH.
    rewrite dom_store, <- app_assoc in IH. apply IH.
    by apply flags_true_store.
  - rewrite decide_False
      by (intros Hin; apply (flags_true_index _ _ Hfl) in Hin; congruence).
    rewrite Hnet. simpl in IH. specialize (IH Hfl).
    destruct IH as (-> & -> & ->). simpl.
    split; [|done].
    pose proof (filesMatch_equal_snapshot b (fileList w)) as Hm.
    destruct (negb (body_err b)
              && filesMatch (scanFiles (body_lines b)) (fileList w)).
    + rewrite decide_True by (by apply Hm). lia.
    + rewrite decide_False; [lia|]. intros H. apply Hm in H. done.
Qed.

(** C1. A pass of the convergence checker does what the specification
    says of it, step for step, and decides by its rule.  With [total]
    the number of configured peers, [inSync] the number of peers that
    were not quarantined at their turn and whose snapshot, listed in
    this pass, equals the local inventory, and [quarantined] the size of
    the quarantine set after the pass, the checker returns true exactly
    when [inSync + quarantined >= total].  The calls it makes and the
    quarantine set it leaves are those of the specification's pass: each
    configured peer that is not quarantined at its turn is called once,
    a peer whose call fails is quarantined, and the inventory is left as
    it was. *)
Theorem checkAllNodesInSync_decision (w : World) :
  flags_true (ignoredNodes w) →
  let r := checkAllNodesInSync cfg env w in
  let total := Z.of_nat (length (peerIPs cfg)) in
  let spec := Spec.pass cfg env (peerIPs cfg) (dom (fileList w))
                (dom (ignoredNodes w)) (trace w) in
  let inSync := Spec.inSync spec in
  let quarantinedCount := Z.of_nat (size (dom (ignoredNodes r.2))) in
  (r.1 = true ↔ inSync + quarantinedCount >= total)
  ∧ dom (ignoredNodes r.2) = Spec.quarantine spec
  ∧ trace r.2 = Spec.history spec ++ [EvStatus total inSync quarantinedCount]
  ∧ fileList r.2 = fileList w
  ∧ inSync = inSyncReports (fileList w) (since w r.2)
  ∧ ∀ rq res, EvGet rq res ∈ since w r.2 →
      ∃ ip, ip ∈ peerIPs cfg ∧ Go.index (ignoredNodes w) ip = false
            ∧ rq = checkRequest cfg ip.
Proof.
  intros Hfl. cbv zeta.
  pose proof (checkAllNodesInSync_verdict w) as Hv.
  pose proof (checkAllNodesInSync_probes w) as Hprobes.
  destruct (checkAllNodesInSync_pass w) as (c & w1 & evs & Hp & Heq).
  cbv zeta in *. rewrite Heq in *. simpl in *.
  destruct (CheckPass_refines _ _ _ _ _ _ Hp Hfl) as (Hc & Hq & Hh).
  destruct (CheckPass_frame _ _ _ _ _ _ _ _ Hp) as (Hf & _).
  pose proof (CheckPass_trace _ _ _ _ _ _ _ _ Hp) as Htr.
  pose proof (CheckPass_count _ _ _ _ _ _ _ _ Hp) as Hcount.
  assert (Spec.inSync
            (Spec.pass cfg env (peerIPs cfg) (dom (fileList w))
               (dom (ignoredNodes w)) (trace w))
          = inSyncReports (fileList w)
              (since w (with_trace
                 (λ t, t ++ [EvStatus (Z.of_nat (length (peerIPs cfg))) c
                               (Go.len (ignoredNodes w1))]) w1))) as Hin.
  { rewrite (since_app w _
               (evs ++ [EvStatus (Z.of_nat (length (peerIPs cfg))) c
                          (Go.len (ignoredNodes w1))]))
      by (simpl; rewrite Htr; by rewrite app_assoc).
    rewrite inSyncReports_app. unfold inSyncReports at 2. simpl. lia. }
  split; [by rewrite Hin|]. split; [done|]. split.
  { rewrite <- Hh, len_dom. f_equal. f_equal. f_equal. lia. }
  split; [done|]. split; [done|]. exact Hprobes.
Qed.

(** C2. For a peer that is not quarantined, whose list-files call is
    answered and read to the end, the iteration of the checker adds one
    to the count of peers in sync if the reported snapshot has as many
    paths as the local inventory and contains every local path, and
    leaves the count as it was otherwise. *)
Theorem checkPeer_counts_iff_match (ip : string) (count : Z) (w : World)
  (status : Z) (body : Body) :
  Go.index (ignoredNodes w) ip = false →
  net env (trace w) (checkRequest cfg ip) = GetResp status body →
  body_err body = false →
  let snapshot : gset string := list_to_set (body_lines body) in
  let agree :=
    size snapshot = size (dom (fileList w))
    ∧ ∀ path, path ∈ dom (fileList w) → path ∈ snapshot in
  (agree → (checkPeer cfg env ip count w).1 = count + 1)
  ∧ (¬ agree → (checkPeer cfg env ip count w).1 = count).
Proof.
  intros Hig Hnet Herr snapshot agree.
  destruct (checkPeer_step cfg env ip count w) as [evs Hs].
  assert ((checkPeer cfg env ip count w).1
          = if filesMatch (scanFiles (body_lines body)) (fileList w)
            then count + 1 else count) as ->.
  { inversion Hs as [Hig'|Hig' Hnet'|st b Hig' Hnet']; try congruence.
    rewrite Hnet in Hnet'. simplify_eq. by rewrite Herr. }
  pose proof (filesMatch_true (scanFiles (body_lines body)) (fileList w)
                (scanFiles_flags _)) as Hm.
  rewrite <- !(size_dom (D := gset string)), scanFiles_dom in Hm.
  fold snapshot in Hm. fold agree in Hm.
  destruct (filesMatch _ _).
  - split; [done|]. intros Hn. destruct Hn. by apply Hm.
  - split; [|done]. intros Ha. apply Hm in Ha. done.
Qed.

(** All configured peers quarantined and none listed twice: the checker
    returns true without probing anyone. *)
Lemma checkAllNodesInSync_all_quarantined_NoDup (w : World) :
  NoDup (peerIPs cfg) →
  (∀ ip, ip ∈ peerIPs cfg → Go.index (ignoredNodes w) ip = true) →
  (checkAllNodesInSync cfg env w).1 = true.
Proof.
  intros Hnd Hall. apply checkAllNodesInSync_verdict.
  pose proof (CheckPass_ignored cfg env) as Hg.
  destruct (checkAllNodesInSync_pass w) as (c & w1 & evs & Hp & Heq).
  simpl in Heq. rewrite Heq. simpl.
  apply Hg in Hp. rewrite Hp, dom_foldl_store.
  assert (list_to_set (peerIPs cfg) ⊆ dom (ignoredNodes w)) as Hsub.
  { intros ip Hip%elem_of_list_to_set. by apply index_true_elem_of_dom, Hall. }
  apply subseteq_size in Hsub. rewrite size_list_to_set in Hsub by done.
  assert (size (dom (ignoredNodes w))
          ≤ size (list_to_set (ignores evs) ∪ dom (ignoredNodes w)))%nat.
  { apply subseteq_size. set_solver. }
  unfold inSyncReports. lia.
Qed.

End CheckerProperties.

(** ** The reconciler *)

Lemma flags_true_index_false (m : gmap string bool) (k : string) :
  flags_true m → Go.index m k = false ↔ k ∉ dom m.
Proof.
  intros H. rewrite <- (flags_true_index m k H).
  destruct (Go.index m k); split; congruence.
Qed.

Lemma filesToPull_run (peerFiles : gmap string bool) (w : World) :
  filesToPull peerFiles w
  = (filter (λ file, Go.index (fileList w) file = false) (Go.range peerFiles),
     w).
Proof.
  unfold filesToPull.
  enough (∀ l acc,
    forRange l
      (λ file acc,
         hasFile ← gets (λ w, Go.index (fileList w) file);
         if hasFile then ret acc else ret (acc ++ [file])) acc w
    = (acc ++ filter (λ file, Go.index (fileList w) file = false) l, w))
    as H by apply (H _ []).
  induction l as [|file l IH]; intros acc.
  - simpl. by rewrite app_nil_r.
  - rewrite forRange_cons, bind_run. simpl. rewrite filter_cons.
    case_decide as Hd; destruct (Go.index (fileList w) file) eqn:Hf;
      try congruence; simpl; rewrite IH; [|done].
    by rewrite <- app_assoc.
Qed.


#[export] Instance adds_preorder (P : Event → Prop) : PreOrder (adds P).
Proof.
  split.
  - intros w. exists []. by rewrite app_nil_r.
  - intros w1 w2 w3 (e1 & H1 & F1) (e2 & H2 & F2). exists (e1 ++ e2).
    split; [by rewrite H2, H1, app_assoc | by apply Forall_app].
Qed.

Lemma adds_since (P : Event → Prop) (w w' : World) :
  adds P w w' → Forall P (since w w').
Proof. intros (evs & H & F). by rewrite (since_app _ _ _ H). Qed.

Lemma since_trace (P : Event → Prop) (w w' : World) :
  adds P w w' → trace w' = trace w ++ since w w'.
Proof. intros (evs & H & F). by rewrite (since_app _ _ _ H). Qed.

Lemma keeps_log_adds (P : Event → Prop) (e : Event) :
  P e → keeps (adds P) (log e).
Proof. intros H w. exists [e]. split; [done | by constructor]. Qed.

Lemma keeps_clientGet_adds (P : Event → Prop) (env : Env) (timeout : Z)
  (peer : PeerURL) (ep : Endpoint) :
  (∀ res, P (EvGet (mkRequest timeout peer ep) res)) →
  keeps (adds P) (clientGet env timeout peer ep).
Proof.
  intros H. unfold clientGet. keeps_tac. by apply keeps_log_adds.
Qed.

Lemma adds_silent (P : Event → Prop) (w w' : World) :
  trace w' = trace w → adds P w w'.
Proof. intros H. exists []. by rewrite app_nil_r. Qed.

Section Reconciler.

Context (cfg : Config) (env : Env).

Lemma downloadFile_calls (peer : PeerURL) (filename : string) :
  keeps (adds fetch_call) (downloadFile env peer filename).
Proof.
  unfold downloadFile, fsOp. keeps_tac.
  apply keeps_clientGet_adds. intros res. by eexists _, _, _.
Qed.

Lemma pullFile_calls (peer : PeerURL) (file : string) :
  keeps (adds reconcile_call) (pullFile env peer file).
Proof.
  unfold pullFile. keeps_tac; try by (apply adds_silent).
  intros w. destruct (downloadFile_calls peer file w) as (evs & H & F).
  exists evs. split; [done|]. eapply Forall_impl; [exact F|]. by left.
Qed.

Lemma syncWithPeer_calls (ip : string) :
  keeps (adds reconcile_call) (syncWithPeer cfg env ip).
Proof.
  unfold syncWithPeer, notifyPush. keeps_tac.
  - apply keeps_clientGet_adds. intros res. right. eexists _, _. by left.
  - intros w. rewrite filesToPull_run. simpl. reflexivity.
  - apply pullFile_calls.
  - apply keeps_clientGet_adds. intros res. right. eexists _, _. right. eauto.
Qed.

Lemma checkAllNodesInSync_calls :
  keeps (adds check_call) (checkAllNodesInSync cfg env).
Proof.
  unfold checkAllNodesInSync, checkPeer, shouldIgnoreNode, ignoreNode.
  keeps_tac; try by (apply adds_silent).
  - apply keeps_clientGet_adds. intros res. left. by eexists _, _.
  - apply keeps_log_adds. right. left. eauto.
  - apply keeps_log_adds. right. right. by eexists _, _, _.
Qed.

End Reconciler.

(** ** Invariants of the process *)

#[export] Instance quarantine_step_preorder cfg : PreOrder (quarantine_step cfg).
Proof.
  split.
  - intros w. by split.
  - intros w1 w2 w3 [S1 I1] [S2 I2]. split; [set_solver | tauto].
Qed.

Lemma quarantine_step_same cfg (w w' : World) :
  same ignoredNodes w w' → quarantine_step cfg w w'.
Proof. unfold same, quarantine_step, quarantine_ok. by intros ->. Qed.

Section Invariants.

Context (cfg : Config) (env : Env).

Lemma exec_same_syncCompleted (a : Action) :
  keeps (same syncCompleted) (exec cfg env a).
Proof. destruct a; simpl; unfold_program; keeps_tac. Qed.

Lemma exec_same_ignoredNodes (a : Action) :
  a ≠ ActCheckAll → keeps (same ignoredNodes) (exec cfg env a).
Proof. destruct a; try done; intros _; simpl; unfold_program; keeps_tac. Qed.

Lemma run_same_syncCompleted (acts : list Action) :
  keeps (same syncCompleted) (run cfg env acts).
Proof. apply keeps_forEach; [tc_solve|]. apply exec_same_syncCompleted. Qed.

Lemma syncLoop_same_syncCompleted (fuel : nat) :
  keeps (same syncCompleted) (syncLoop cfg env fuel).
Proof.
  induction fuel as [|fuel IH]; simpl; [keeps_tac|].
  unfold_program. keeps_tac.
Qed.

Lemma main_same_syncCompleted (fuel : nat) :
  keeps (same syncCompleted) (main cfg env fuel).
Proof.
  unfold main. case_bool_decide; [keeps_tac|].
  apply syncLoop_same_syncCompleted.
Qed.

(** What a pass of the checker quarantines. *)
Lemma checkAllNodesInSync_quarantine (w : World) (p : string) :
  let w' := (checkAllNodesInSync cfg env w).2 in
  quarantined w' p → ¬ quarantined w p →
  p ∈ peerIPs cfg ∧ EvGet (checkRequest cfg p) GetErr ∈ since w w'.
Proof.
  destruct (checkAllNodesInSync_pass cfg env w) as (c & w1 & evs & Hp & Heq).
  simpl in *. rewrite Heq. simpl. unfold quarantined. simpl.
  pose proof (CheckPass_trace _ _ _ _ _ _ _ _ Hp) as Htr.
  pose proof (CheckPass_events _ _ _ _ _ _ _ _ Hp) as Hev.
  rewrite (CheckPass_ignored _ _ _ _ _ _ _ _ Hp), dom_foldl_store.
  intros [Hin|Hin]%elem_of_union Hnot; [|done].
  apply elem_of_list_to_set in Hin. unfold ignores in Hin.
  apply list_elem_of_omap in Hin as (e & He & Hsome).
  destruct e; simplify_eq.
  destruct (Hev _ He) as (ip & Hip & _ & [[res Hres]|[Heq' Hget]]);
    simplify_eq.
  split; [done|].
  erewrite since_app; [|simpl; rewrite Htr, <- app_assoc; done].
  apply elem_of_app. by left.
Qed.

Lemma checkAllNodesInSync_quarantine_step :
  keeps (quarantine_step cfg) (checkAllNodesInSync cfg env).
Proof.
  intros w.
  destruct (checkAllNodesInSync_pass cfg env w) as (c & w1 & evs & Hp & Heq).
  simpl in *. rewrite Heq. simpl.
  pose proof (CheckPass_events _ _ _ _ _ _ _ _ Hp) as Hev.
  unfold quarantine_step, quarantine_ok. simpl.
  rewrite (CheckPass_ignored _ _ _ _ _ _ _ _ Hp), dom_foldl_store.
  split; [set_solver|]. intros [Hsub Hfl]. split.
  - apply union_least; [|done]. intros p Hin.
    apply elem_of_list_to_set in Hin. unfold ignores in Hin.
    apply list_elem_of_omap in Hin as (e & He & Hsome).
    destruct e; simplify_eq.
    destruct (Hev _ He) as (ip & Hip & _ & [[res Hres]|[Heq' Hget]]);
      simplify_eq.
    by apply elem_of_list_to_set.
  - by apply flags_true_foldl.
Qed.

Lemma exec_quarantine_step (a : Action) :
  keeps (quarantine_step cfg) (exec cfg env a).
Proof.
  destruct a;
    try (intros w; by apply quarantine_step_same, exec_same_ignoredNodes).
  simpl. apply keeps_bind; [tc_solve | | intros ?; keeps_tac].
  apply checkAllNodesInSync_quarantine_step.
Qed.

Lemma run_quarantine_step (acts : list Action) :
  keeps (quarantine_step cfg) (run cfg env acts).
Proof. apply keeps_forEach; [tc_solve|]. apply exec_quarantine_step. Qed.

Lemma initWorld_quarantine_ok (paths : list string) :
  quarantine_ok cfg (initWorld paths).
Proof. split; simpl; [set_solver | apply flags_true_empty]. Qed.

End Invariants.

(** ** Properties of the process *)

Section ProcessProperties.

Context (cfg : Config) (env : Env).

(** The round loop is a schedule of the transition system. *)
Lemma run_app (a1 a2 : list Action) (w : World) :
  (run cfg env (a1 ++ a2) w).2 = (run cfg env a2 (run cfg env a1 w).2).2.
Proof.
  unfold run, forEach. rewrite forRange_app.
  by destruct (forRange a1 _ tt w).1.
Qed.

Lemma run_cons (a : Action) (acts : list Action) (w : World) :
  (run cfg env (a :: acts) w).2 = (run cfg env acts (exec cfg env a w).2).2.
Proof.
  unfold run, forEach. rewrite forRange_cons.
  by destruct (exec cfg env a w).1.
Qed.

Lemma forEach_syncWithPeer_run (l : list string) (w : World) :
  (forEach l (syncWithPeer cfg env) w).2
  = (run cfg env (ActSyncWithPeer <$> l) w).2.
Proof.
  revert w. induction l as [|ip l IH]; intros w; [done|].
  rewrite fmap_cons, run_cons. simpl. unfold forEach in *.
  rewrite forRange_cons. destruct (syncWithPeer cfg env ip w).1. apply IH.
Qed.

Lemma syncLoop_is_run (fuel : nat) (w : World) :
  ∃ acts, (syncLoop cfg env fuel w).2 = (run cfg env acts w).2.
Proof.
  revert w. induction fuel as [|fuel IH]; intros w; [by exists []|].
  simpl. rewrite bind_run. simpl.
  destruct (syncAttempts w <? maxAttempts).
  - rewrite !bind_run. rewrite forEach_syncWithPeer_run.
    set (w1 := (beginAttempt w).2).
    set (w2 := (run cfg env (ActSyncWithPeer <$> peerIPs cfg) w1).2).
    set (w3 := (checkAllNodesInSync cfg env w2).2).
    assert (∀ d, with_trace (λ t, t ++ [EvSleep d]) w3
      = (run cfg env ([ActAttempt] ++ (ActSyncWithPeer <$> peerIPs cfg)
                        ++ [ActCheckAll; ActSleep d]) w).2) as Hsched.
    { intros d. rewrite run_app, run_cons. simpl. fold w1.
      rewrite run_app. fold w2. rewrite !run_cons. simpl.
      rewrite bind_run. simpl. done. }
    destruct (checkAllNodesInSync cfg env w2).1.
    + rewrite bind_run. simpl. rewrite Hsched. eauto.
    + rewrite bind_run.
      change (log (EvSleep (3 * Go.Second)) w3).2
        with (with_trace (λ t, t ++ [EvSleep (3 * Go.Second)]) w3).
      destruct (IH (with_trace (λ t, t ++ [EvSleep (3 * Go.Second)]) w3))
        as [acts ->].
      rewrite Hsched, <- run_app. eauto.
  - rewrite bind_run. simpl. by exists [ActGiveUp].
Qed.

Lemma main_is_run (fuel : nat) (w : World) :
  ∃ acts, (main cfg env fuel w).2 = (run cfg env acts w).2.
Proof.
  unfold main. case_bool_decide; [by exists []|]. apply syncLoop_is_run.
Qed.

(** C4, as the code has it.  No step of the process other than a pass
    of the convergence checker changes the quarantine set, the
    reconciler's round for a peer included; a pass quarantines a peer
    only when the pass's own list-files call to that configured peer
    returned an error, of whatever kind; and a failed list-files call in
    the reconciler ends that peer's round with nothing done but the
    call. *)
Theorem quarantine_only_on_failed_check (w : World) :
  (∀ a, a ≠ ActCheckAll →
     ignoredNodes (exec cfg env a w).2 = ignoredNodes w)
  ∧ (∀ p, let w' := (checkAllNodesInSync cfg env w).2 in
       quarantined w' p → ¬ quarantined w p →
       p ∈ peerIPs cfg ∧ EvGet (checkRequest cfg p) GetErr ∈ since w w')
  ∧ (∀ ip, net env (trace w) (syncRequest cfg ip) = GetErr →
       syncWithPeer cfg env ip w
       = (tt, with_trace (λ t, t ++ [EvGet (syncRequest cfg ip) GetErr]) w)).
Proof.
  split; [|split].
  - intros a Ha. by apply exec_same_ignoredNodes.
  - intros p. apply checkAllNodesInSync_quarantine.
  - intros ip Hnet. unfold syncWithPeer, clientGet.
    rewrite !bind_run. simpl. fold (syncRequest cfg ip). by rewrite Hnet.
Qed.

(** C6. In every state the process reaches from its start, the
    quarantine set holds configured peers only, and a peer that is in it
    is still in it, and is still skipped, after any further steps. *)
Theorem quarantine_permanent_and_configured (paths : list string)
  (acts acts' : list Action) (p : string) :
  let w := (run cfg env acts (initWorld paths)).2 in
  let w' := (run cfg env acts' w).2 in
  (quarantined w p → p ∈ peerIPs cfg)
  ∧ (quarantined w p →
     quarantined w' p ∧ (shouldIgnoreNode p w').1 = true).
Proof.
  intros w w'.
  destruct (run_quarantine_step cfg env acts (initWorld paths)) as [_ Hok].
  specialize (Hok (initWorld_quarantine_ok cfg paths)). fold w in Hok.
  destruct (run_quarantine_step cfg env acts' w) as [Hsub Hok'].
  specialize (Hok' Hok). fold w' in Hsub, Hok'.
  destruct Hok as [Hcfg _], Hok' as [_ Hfl]. unfold quarantined. split.
  - intros Hp. apply Hcfg in Hp. by apply elem_of_list_to_set in Hp.
  - intros Hp. split; [by apply Hsub|].
    simpl. by apply (flags_true_index _ _ Hfl), Hsub.
Qed.

(** C8. In every state the process reaches from its start the completion
    flag is false, [/check] answers PENDING, and the round loop run from
    there to its end leaves the flag false. *)
Theorem check_endpoint_always_pending (paths : list string)
  (acts : list Action) (r : HttpRequest) (fuel : nat) :
  let w := (run cfg env acts (initWorld paths)).2 in
  syncCompleted w = false
  ∧ (handleCheckSync r w).1 = mkResponse 200 "PENDING"
  ∧ syncCompleted (main cfg env fuel w).2 = false.
Proof.
  intros w.
  assert (syncCompleted w = false) as Hw.
  { apply (run_same_syncCompleted cfg env acts (initWorld paths)). }
  split; [done|]. split.
  - unfold handleCheckSync. rewrite bind_run. simpl. by rewrite Hw.
  - by rewrite (main_same_syncCompleted cfg env fuel w).
Qed.

(** C10. A [/sync] request whose query has no [file] parameter, or an
    empty first value for it, is answered with status 400 and leaves the
    whole state as it was: no goroutine is started and the inventory is
    unchanged. *)
Theorem sync_request_without_file (r : HttpRequest) (w : World) :
  req_query r !! "file"%string = None
  ∨ (∃ rest, req_query r !! "file"%string = Some (""%string :: rest)) →
  let res := handleSyncRequest cfg r w in
  resp_status res.1 = 400
  ∧ goroutines res.2 = goroutines w
  ∧ fileList res.2 = fileList w
  ∧ res.2 = w.
Proof.
  intros Hq.
  assert (Go.Values_Get (req_query r) "file" = ""%string) as Hget.
  { unfold Go.Values_Get. by destruct Hq as [->|[rest ->]]. }
  unfold handleSyncRequest. rewrite Hget. simpl. done.
Qed.

(** C5, as the code has it. Every call of a checker pass is a listing
    call with a timeout of 5 s; every call of a reconciler round is a
    listing call or a notification with 30 s, or a file fetch with 60 s;
    every call of [downloadFile] is a file fetch with 60 s.  The
    checker's timeout is shorter than the reconciler's listing timeout,
    which is shorter than the fetch timeout. *)
Theorem timeout_policy (w : World) (ip : string) (peer : PeerURL)
  (file : string) :
  Forall check_call (since w (checkAllNodesInSync cfg env w).2)
  ∧ Forall reconcile_call (since w (syncWithPeer cfg env ip w).2)
  ∧ Forall fetch_call (since w (downloadFile env peer file w).2)
  ∧ checkTimeout = 5 * 1000000000
  ∧ syncTimeout = 30 * 1000000000
  ∧ downloadTimeout = 60 * 1000000000
  ∧ checkTimeout < syncTimeout < downloadTimeout.
Proof.
  split; [|split; [|split]].
  - apply adds_since, checkAllNodesInSync_calls.
  - apply adds_since, syncWithPeer_calls.
  - apply adds_since, downloadFile_calls.
  - repeat split; reflexivity.
Qed.

End ProcessProperties.

(** ** The round loop *)

Lemma quiet_rounds_verdicts (evs : list Event) :
  Forall quiet evs → rounds evs = 0%nat ∧ verdicts evs = [].
Proof.
  unfold rounds, verdicts. induction 1 as [|e evs He _ [IH1 IH2]]; [done|].
  destruct e; simpl in *; try done.
  all: by apply length_zero_iff_nil in IH1 as ->.
Qed.

Lemma rounds_sleep (d : Z) (evs : list Event) :
  rounds (EvSleep d :: evs) = rounds evs.
Proof. reflexivity. Qed.

Lemma verdicts_sleep (d : Z) (evs : list Event) :
  verdicts (EvSleep d :: evs) = verdicts evs.
Proof. reflexivity. Qed.

Lemma rounds_nil : rounds [] = 0%nat.
Proof. reflexivity. Qed.

Lemma verdicts_nil : verdicts [] = [].
Proof. reflexivity. Qed.

Lemma reconcile_call_quiet (e : Event) : reconcile_call e → quiet e.
Proof.
  intros [(? & ? & ? & ->)|(? & ? & [->|[? ->]])]; exact I.
Qed.

Lemma wrap64_small (z : Z) : - 2 ^ 63 <= z < 2 ^ 63 → Go.wrap64 z = z.
Proof. intros H. unfold Go.wrap64. rewrite Z.mod_small; lia. Qed.

Section RoundLoop.

Context (cfg : Config) (env : Env).

Lemma pass_events_quiet l w evs : pass_events cfg l w evs → Forall quiet evs.
Proof.
  intros H. apply Forall_forall. intros e He.
  destruct (H e He) as (ip & _ & _ & [[res ->]|[-> _]]); exact I.
Qed.

Lemma forEach_syncWithPeer_quiet (l : list string) (w : World) :
  let w' := (forEach l (syncWithPeer cfg env) w).2 in
  syncAttempts w' = syncAttempts w
  ∧ ∃ evs, trace w' = trace w ++ evs ∧ Forall quiet evs.
Proof.
  split.
  - apply (keeps_forEach (same syncAttempts)). intros ip.
    unfold_program. keeps_tac.
  - destruct (keeps_forEach (adds reconcile_call) l (syncWithPeer cfg env)
                (syncWithPeer_calls cfg env) w) as (evs & Htr & F).
    exists evs. split; [done|].
    eapply Forall_impl; [exact F | apply reconcile_call_quiet].
Qed.

Lemma attempt_spec (w : World) :
  0 <= syncAttempts w < maxAttempts →
  syncAttempts (attempt cfg env w).2 = syncAttempts w + 1
  ∧ ∃ evs, trace (attempt cfg env w).2 = trace w ++ evs
           ∧ rounds evs = 1%nat ∧ verdicts evs = [(attempt cfg env w).1].
Proof.
  intros Ha. unfold attempt. rewrite !bind_run.
  set (w1 := (beginAttempt w).2).
  assert (syncAttempts w1 = syncAttempts w + 1
          ∧ trace w1 = trace w ++ [EvAttempt (syncAttempts w + 1)])
    as [Ha1 Ht1].
  { subst w1. unfold beginAttempt. rewrite !bind_run. simpl.
    unfold maxAttempts in Ha. rewrite wrap64_small by lia. done. }
  destruct (forEach_syncWithPeer_quiet (peerIPs cfg) w1) as [Ha2 (e2 & Ht2 & Q2)].
  set (w2 := (forEach (peerIPs cfg) (syncWithPeer cfg env) w1).2) in *.
  destruct (checkAllNodesInSync_pass cfg env w2) as (c & w3 & e3 & Hp & Heq).
  simpl in Heq. rewrite Heq. simpl.
  destruct (CheckPass_frame _ _ _ _ _ _ _ _ Hp) as (_ & _ & Ha3 & _).
  pose proof (CheckPass_trace _ _ _ _ _ _ _ _ Hp) as Ht3.
  pose proof (pass_events_quiet _ _ _ (CheckPass_events _ _ _ _ _ _ _ _ Hp))
    as Q3.
  split; [congruence|].
  eexists ([EvAttempt (syncAttempts w + 1)] ++ e2 ++ e3 ++ [EvStatus _ _ _]).
  split; [rewrite Ht3, Ht2, Ht1, <- !app_assoc; done|].
  destruct (quiet_rounds_verdicts _ Q2) as [R2 V2].
  destruct (quiet_rounds_verdicts _ Q3) as [R3 V3].
  rewrite !rounds_app, !verdicts_app, R2, R3, V2, V3. done.
Qed.

Lemma syncLoop_unfold (fuel : nat) (w : World) :
  syncLoop cfg env (S fuel) w
  = if syncAttempts w <? maxAttempts then
      if (attempt cfg env w).1 then
        (Some ExitSynced,
         with_trace
           (λ t, t ++ [EvSleep (Go.wrap64 (syncDelay cfg * Go.Second))])
           (attempt cfg env w).2)
      else
        syncLoop cfg env fuel
          (with_trace (λ t, t ++ [EvSleep (3 * Go.Second)]) (attempt cfg env w).2)
    else (Some ExitGaveUp, with_trace (λ t, t ++ [EvGiveUp maxAttempts]) w).
Proof.
  simpl. rewrite bind_run. simpl.
  destruct (syncAttempts w <? maxAttempts); [|by rewrite bind_run].
  unfold attempt. rewrite !bind_run.
  destruct (checkAllNodesInSync _ _ _).1; by rewrite bind_run.
Qed.

(** How the loop ends, given the counter it starts from. *)
Lemma syncLoop_spec (fuel : nat) (w : World) :
  0 <= syncAttempts w <= maxAttempts →
  (Z.to_nat (maxAttempts - syncAttempts w) < fuel)%nat →
  ∃ e evs,
    (syncLoop cfg env fuel w).1 = Some e
    ∧ trace (syncLoop cfg env fuel w).2 = trace w ++ evs
    ∧ length (verdicts evs) = rounds evs
    ∧ Z.of_nat (rounds evs) <= maxAttempts - syncAttempts w
    ∧ match e with
      | ExitSynced => ∃ vs, verdicts evs = vs ++ [true]
      | ExitGaveUp =>
          Forall (λ b, b = false) (verdicts evs)
          ∧ Z.of_nat (rounds evs) = maxAttempts - syncAttempts w
      | ExitNoPeers => False
      end.
Proof.
  revert w. induction fuel as [|fuel IH]; intros w Ha Hfuel; [lia|].
  rewrite syncLoop_unfold.
  destruct (Z.ltb_spec (syncAttempts w) maxAttempts) as [Hlt|Hge].
  - destruct (attempt_spec w) as (Ha1 & e1 & Ht1 & R1 & V1); [lia|].
    destruct (attempt cfg env w).1 eqn:Hok.
    + exists ExitSynced, (e1 ++ [EvSleep (Go.wrap64 (syncDelay cfg * Go.Second))]).
      simpl. rewrite Ht1, rounds_app, verdicts_app, R1, V1, <- app_assoc.
      rewrite rounds_sleep, verdicts_sleep, rounds_nil, verdicts_nil. simpl.
      repeat split; try done; try lia. by exists [].
    + set (w' := with_trace (λ t, t ++ [EvSleep (3 * Go.Second)]) (attempt cfg env w).2).
      destruct (IH w') as (e & e2 & He & Ht2 & L2 & R2 & Hend).
      { simpl. lia. }
      { simpl. lia. }
      exists e, (e1 ++ [EvSleep (3 * Go.Second)] ++ e2).
      rewrite He, Ht2. simpl. rewrite Ht1.
      rewrite !rounds_app, !verdicts_app, R1, V1, <- !app_assoc.
      rewrite rounds_sleep, verdicts_sleep.
      simpl in *. rewrite L2.
      repeat split; try done; try lia.
      destruct e; try done.
      * destruct Hend as [vs ->]. by exists (false :: vs).
      * destruct Hend as [F R]. split; [by apply Forall_cons|].
        subst w'. simpl in R. lia.
  - exists ExitGaveUp, [EvGiveUp maxAttempts]. unfold rounds, verdicts. simpl.
    repeat split; try done; lia.
Qed.

(** C9. Started with the attempt counter at zero and a non-empty peer
    list, [main] leaves the loop (given fuel for more than [maxAttempts]
    iterations), enters at most [maxAttempts] rounds, runs one
    convergence check per round, and, when no check returned true,
    ends after exactly [maxAttempts] rounds by giving up. *)
Theorem round_loop_bounded (w : World) (fuel : nat) :
  peerIPs cfg ≠ [] →
  syncAttempts w = 0 →
  (Z.to_nat maxAttempts < fuel)%nat →
  ∃ e, (main cfg env fuel w).1 = Some e
    ∧ let evs := since w (main cfg env fuel w).2 in
      Z.of_nat (rounds evs) <= maxAttempts
      ∧ length (verdicts evs) = rounds evs
      ∧ (Forall (λ b, b = false) (verdicts evs) →
         Z.of_nat (rounds evs) = maxAttempts ∧ e = ExitGaveUp).
Proof.
  intros Hpeers Ha Hfuel. unfold main.
  rewrite bool_decide_eq_false_2 by (by destruct (peerIPs cfg)).
  destruct (syncLoop_spec fuel w) as (e & evs & He & Ht & L & R & Hend).
  { rewrite Ha. unfold maxAttempts. lia. }
  { by rewrite Ha, Z.sub_0_r. }
  exists e. split; [done|]. rewrite (since_app _ _ _ Ht).
  rewrite Ha, Z.sub_0_r in *.
  split; [done|]. split; [done|]. intros Hall.
  destruct e; try done.
  - destruct Hend as [vs Hvs]. rewrite Hvs in Hall.
    apply Forall_app in Hall as [_ Hall]. by inversion Hall.
  - by destruct Hend.
Qed.

End RoundLoop.

(** ** Concrete runs *)

Example remote_host_ipv4 : Str.remote_host "10.0.0.2:40000" = "10.0.0.2"%string.
Proof. reflexivity. Qed.

Example remote_host_ipv6 : Str.remote_host "[::1]:40000" = "::1"%string.
Proof. reflexivity. Qed.

(** A node holding [x] and [y] reconciles with a peer that reports [y]
    and [z]: it lists, fetches [z], records it, and notifies the peer of
    [x]. *)
Example reconcile_two_nodes :
  let w := initWorld ["x"; "y"]%string in
  let w' := (syncWithPeer onePeer (netServing ["y"; "z"]%string)
               "10.0.0.2" w).2 in
  let peer := mkPeerURL "10.0.0.2" 18283 in
  let answer := GetResp 200 (mkBody ["y"; "z"]%string false) in
  since w w'
  = [EvGet (mkRequest syncTimeout peer EpFiles) answer;
     EvGet (mkRequest downloadTimeout peer (EpFile "z")) answer;
     EvGet (mkRequest syncTimeout peer (EpSync "x")) answer]
  ∧ Go.index (fileList w') "z" = true
  ∧ Go.len (fileList w') = 3.
Proof. vm_compute. done. Qed.

(** A single peer that never answers is quarantined by the first check,
    which then reports convergence. *)
Example unreachable_peer_converges :
  let r := main onePeer netDown 6 (initWorld ["x"%string]) in
  r.1 = Some ExitSynced
  ∧ rounds (trace r.2) = 1%nat
  ∧ Go.index (ignoredNodes r.2) "10.0.0.2" = true.
Proof. vm_compute. done. Qed.

(** A peer that answers every call but never takes up the local path:
    five rounds, five negative verdicts, and [main] gives up. *)
Example diverging_peer_exhausts_attempts :
  let r := main onePeer (netServing ["other"%string]) 6
             (initWorld ["x"%string]) in
  r.1 = Some ExitGaveUp
  ∧ rounds (trace r.2) = 5%nat
  ∧ verdicts (trace r.2) = [false; false; false; false; false]
  ∧ syncAttempts r.2 = 5.
Proof. vm_compute. done. Qed.

(** A [/sync] request for a missing file starts one goroutine towards
    the caller; once run against a peer that is down, the inventory is
    as before. *)
Example sync_request_then_failed_fetch :
  let w := initWorld ["x"%string] in
  let r := mkHttpRequest {["file"%string := ["missing.txt"%string]]}
             "10.0.0.2:40000" in
  let w1 := (handleSyncRequest onePeer r w).2 in
  let w2 := (schedule netDown 0 w1).2 in
  goroutines w1 = [mkTask (mkPeerURL "10.0.0.2" 18283) "missing.txt"]
  ∧ goroutines w2 = []
  ∧ fileList w2 = fileList w.
Proof. vm_compute. done. Qed.

(** C7 on the code. With one peer listed twice and unreachable, the
    first pass quarantines it; in the state it leaves every configured
    peer is quarantined, yet the next pass returns false, and [main]
    runs all its rounds and gives up.  The checker compares the number
    of distinct quarantined peers with the length of the peer list. *)
Theorem all_quarantined_listed_twice_not_converged :
  let w0 := initWorld ["x"%string] in
  let w := (checkAllNodesInSync samePeerTwice netDown w0).2 in
  (∀ ip, ip ∈ peerIPs samePeerTwice → quarantined w ip)
  ∧ (checkAllNodesInSync samePeerTwice netDown w).1 = false
  ∧ (main samePeerTwice netDown 6 w0).1 = Some ExitGaveUp.
Proof.
  split; [|split; vm_compute; reflexivity].
  intros ip Hin. assert (ip = "10.0.0.2"%string) as ->.
  { simpl in Hin. set_solver. }
  unfold quarantined. apply elem_of_dom. vm_compute. eauto.
Qed.

(** C5 as worded fails: on a run where the peer is down, the checker's
    listing call carries 5 s and the reconciler's carries 30 s. *)
Lemma check_timeout_is_not_sync_timeout :
  ¬ check_reuses_sync_timeout onePeer netDown (initWorld []) "10.0.0.2".
Proof.
  intros H.
  assert (since (initWorld [])
            (checkAllNodesInSync onePeer netDown (initWorld [])).2
          = [EvGet (checkRequest onePeer "10.0.0.2") GetErr;
             EvIgnore "10.0.0.2"; EvStatus 1 0 1]) as E1
    by (vm_compute; reflexivity).
  assert (since (initWorld [])
            (syncWithPeer onePeer netDown "10.0.0.2" (initWorld [])).2
          = [EvGet (syncRequest onePeer "10.0.0.2") GetErr]) as E2
    by (vm_compute; reflexivity).
  assert (rq_timeout (checkRequest onePeer "10.0.0.2")
          = rq_timeout (syncRequest onePeer "10.0.0.2")) as Heq.
  { apply (H _ GetErr _ GetErr).
    - rewrite E1. apply list_elem_of_here.
    - rewrite E2. apply list_elem_of_here.
    - reflexivity.
    - reflexivity. }
  vm_compute in Heq. discriminate Heq.
Qed.

(** C2 on a peer that reports the one local path. *)
Lemma checkPeer_counts_iff_match_witness :
  let w := initWorld ["x"%string] in
  let snapshot : gset string := list_to_set ["x"%string] in
  let agree :=
    size snapshot = size (dom (fileList w))
    ∧ ∀ path, path ∈ dom (fileList w) → path ∈ snapshot in
  (agree → (checkPeer onePeer (netServing ["x"%string]) "10.0.0.2" 0 w).1 = 0 + 1)
  ∧ (¬ agree → (checkPeer onePeer (netServing ["x"%string]) "10.0.0.2" 0 w).1 = 0).
Proof.
  apply (checkPeer_counts_iff_match onePeer (netServing ["x"%string])
           "10.0.0.2" 0 (initWorld ["x"%string]) 200
           (mkBody ["x"%string] false));
    reflexivity.
Defined.


(** C9 on a run that never converges: the one peer answers every call
    but keeps reporting a path of its own only. *)
Lemma round_loop_bounded_witness :
  ∃ e, (main onePeer (netServing ["other"%string]) 6
          (initWorld ["x"%string])).1 = Some e
    ∧ let evs := since (initWorld ["x"%string])
                   (main onePeer (netServing ["other"%string]) 6
                      (initWorld ["x"%string])).2 in
      Z.of_nat (rounds evs) <= maxAttempts
      ∧ length (verdicts evs) = rounds evs
      ∧ (Forall (λ b, b = false) (verdicts evs) →
         Z.of_nat (rounds evs) = maxAttempts ∧ e = ExitGaveUp).
Proof.
  apply (round_loop_bounded onePeer (netServing ["other"%string])
           (initWorld ["x"%string]) 6).
  - discriminate.
  - reflexivity.
  - vm_compute. lia.
Defined.

(** C10 on a request with an empty query. *)
Lemma sync_request_without_file_witness :
  let res := handleSyncRequest onePeer bareRequest (initWorld ["x"%string]) in
  resp_status res.1 = 400
  ∧ goroutines res.2 = goroutines (initWorld ["x"%string])
  ∧ fileList res.2 = fileList (initWorld ["x"%string])
  ∧ res.2 = initWorld ["x"%string].
Proof.
  apply (sync_request_without_file onePeer bareRequest
           (initWorld ["x"%string])).
  left. reflexivity.
Defined.

(** ** The listing and its readers *)

Lemma string_append_cons (c : Ascii.ascii) (a b : string) :
  String c a +:+ b = String c (a +:+ b).
Proof. reflexivity. Qed.

Lemma string_append_nil_l (s : string) : EmptyString +:+ s = s.
Proof. reflexivity. Qed.

Lemma string_append_nil_r (s : string) : s +:+ EmptyString = s.
Proof.
  induction s as [|c s IH]; [done|]. by rewrite string_append_cons, IH.
Qed.

Lemma string_append_assoc (a b c : string) : (a +:+ b) +:+ c = a +:+ (b +:+ c).
Proof.
  induction a as [|x a IH]; [done|]. by rewrite !string_append_cons, IH.
Qed.

Lemma string_length_append (a b : string) :
  String.length (a +:+ b) = (String.length a + String.length b)%nat.
Proof.
  induction a as [|x a IH]; [done|]. rewrite string_append_cons. simpl.
  by rewrite IH.
Qed.

Lemma dropCR_id (s : string) :
  Scan.last_byte s ≠ Some Scan.cr → Scan.dropCR s = s.
Proof.
  induction s as [|c s IH]; [done|]. simpl. destruct s as [|c' s'].
  - intros H. rewrite bool_decide_eq_false_2; [done | congruence].
  - intros H. by rewrite IH.
Qed.

Lemma scan_cons (cur : string) (c : Ascii.ascii) (s' : string) :
  Scan.scan cur (String c s')
  = if Scan.MaxScanTokenSize <=? Z.of_nat (String.length cur)
    then mkBody [] true
    else if bool_decide (c = Scan.newline) then
      mkBody (Scan.dropCR cur :: body_lines (Scan.scan EmptyString s'))
             (body_err (Scan.scan EmptyString s'))
    else Scan.scan (cur +:+ String c EmptyString) s'.
Proof. reflexivity. Qed.

(** One line of a body: the bytes up to the next newline, when they fit
    the scanner's buffer. *)
Lemma scan_line (cur p rest : string) :
  Scan.has_byte Scan.newline p = false →
  Z.of_nat (String.length (cur +:+ p)) < Scan.MaxScanTokenSize →
  Scan.scan cur (p +:+ String Scan.newline rest)
  = mkBody (Scan.dropCR (cur +:+ p)
              :: body_lines (Scan.scan EmptyString rest))
           (body_err (Scan.scan EmptyString rest)).
Proof.
  revert cur. induction p as [|c p IH]; intros cur Hnl Hlen.
  - rewrite string_append_nil_r in *. rewrite string_append_nil_l, scan_cons.
    destruct (Z.leb_spec Scan.MaxScanTokenSize (Z.of_nat (String.length cur)));
      [lia|].
    by rewrite bool_decide_eq_true_2.
  - simpl in Hnl. apply orb_false_iff in Hnl as [Hc Hp].
    apply bool_decide_eq_false in Hc.
    rewrite string_length_append in Hlen. simpl in Hlen.
    rewrite string_append_cons, scan_cons.
    destruct (Z.leb_spec Scan.MaxScanTokenSize (Z.of_nat (String.length cur)));
      [lia|].
    rewrite bool_decide_eq_false_2 by done.
    rewrite IH; [|done|].
    + by rewrite string_append_assoc, string_append_cons, string_append_nil_l.
    + rewrite string_append_assoc, string_append_cons, string_append_nil_l,
        string_length_append.
      simpl. lia.
Qed.

(** The lines of a listing are its paths, in order. *)
Lemma scan_listing (paths : list string) :
  Forall line_safe paths →
  Scan.scanText
    (foldr (λ file out, file +:+ String (Ascii.ascii_of_nat 10) out)
           EmptyString paths)
  = mkBody paths false.
Proof.
  unfold Scan.scanText. induction 1 as [|p paths (Hnl & Hcr & Hlen) _ IH].
  - reflexivity.
  - simpl. change (Ascii.ascii_of_nat 10) with Scan.newline in *.
    rewrite scan_line, IH; [|done|by rewrite string_append_nil_l].
    simpl. by rewrite string_append_nil_l, dropCR_id.
Qed.

Lemma lookup_foldl_store (l : list string) (m : gmap string bool) (k : string) :
  foldl (λ m p, Go.store p m) m l !! k
  = if decide (k ∈ l) then Some true else m !! k.
Proof.
  revert m. induction l as [|x l IH]; intros m; cbn [foldl].
  - destruct (decide (k ∈ [])) as [H|H]; [by apply elem_of_nil in H | done].
  - rewrite IH. unfold Go.store.
    destruct (decide (k ∈ l)) as [Hin|Hnin];
      destruct (decide (k ∈ x :: l)) as [Hin'|Hnin']; try done.
    + exfalso. apply Hnin'. by right.
    + apply elem_of_cons in Hin' as [->|?]; [|done].
      by rewrite lookup_insert_eq.
    + rewrite lookup_insert_ne; [done|]. intros ->. apply Hnin'. by left.
Qed.

(** Scanning the keys of a map of the program gives the map back. *)
Lemma scanFiles_range (fl : gmap string bool) :
  flags_true fl → scanFiles (Go.range fl) = fl.
Proof.
  intros Hfl. apply map_eq. intros k. unfold scanFiles.
  rewrite lookup_foldl_store, lookup_empty.
  destruct (decide (k ∈ Go.range fl)) as [Hin|Hnin].
  - apply elem_of_range, elem_of_dom in Hin as [v Hv].
    rewrite Hv. f_equal. symmetry. by apply (Hfl k v).
  - symmetry. apply not_elem_of_dom. by rewrite <- elem_of_range.
Qed.

(** X1. A peer that scans the whole body of this node's [/files] answer
    reads, without error, exactly this node's inventory, provided every
    path is free of newlines, does not end in a carriage return and is
    shorter than the scanner's token limit; the handler answers 200 and
    changes nothing. *)
Theorem listing_round_trip (r : HttpRequest) (w : World) :
  flags_true (fileList w) →
  (∀ path, path ∈ dom (fileList w) → line_safe path) →
  let res := handleFileList r w in
  let body := Scan.scanText (resp_body res.1) in
  resp_status res.1 = 200
  ∧ body_err body = false
  ∧ body_lines body = Go.range (fileList w)
  ∧ scanFiles (body_lines body) = fileList w
  ∧ res.2 = w.
Proof.
  intros Hfl Hsafe. unfold handleFileList. rewrite bind_run. simpl.
  rewrite scan_listing.
  - simpl. by rewrite scanFiles_range.
  - apply Forall_forall. intros p Hp. by apply Hsafe, elem_of_range.
Qed.

(** X2. On maps of the program the checker's comparison is symmetric,
    and every inventory matches itself: equal length and inclusion of
    one side is equality of the two path sets. *)
Theorem filesMatch_symmetric (m1 m2 : gmap string bool) :
  flags_true m1 → flags_true m2 →
  filesMatch m1 m2 = filesMatch m2 m1
  ∧ filesMatch m1 m1 = true
  ∧ (filesMatch m1 m2 = true → m1 = m2).
Proof.
  intros H1 H2.
  pose proof (filesMatch_set_eq m1 m2 H1) as E12.
  pose proof (filesMatch_set_eq m2 m1 H2) as E21.
  pose proof (filesMatch_set_eq m1 m1 H1) as E11.
  split; [|split].
  - destruct (filesMatch m1 m2) eqn:F12, (filesMatch m2 m1) eqn:F21; try done.
    + symmetry. apply E21. symmetry. by apply E12.
    + apply E12. symmetry. by apply E21.
  - by apply E11.
  - intros Hm%E12. apply map_eq. intros k.
    destruct (m1 !! k) as [v1|] eqn:L1, (m2 !! k) as [v2|] eqn:L2.
    + by rewrite (H1 k v1 L1), (H2 k v2 L2).
    + apply elem_of_dom_2 in L1. rewrite Hm in L1.
      apply elem_of_dom in L1 as [? ?]. congruence.
    + apply elem_of_dom_2 in L2. rewrite <- Hm in L2.
      apply elem_of_dom in L2 as [? ?]. congruence.
    + done.
Qed.

(** ** Fetching and the reconciler's round *)

Lemma calls_app (e1 e2 : list Event) : calls (e1 ++ e2) = calls e1 ++ calls e2.
Proof. apply omap_app. Qed.

Section Fetch.

Context (cfg : Config) (env : Env).

Lemma downloadFile_run (peer : PeerURL) (file : string) (w : World) :
  let res := net env (trace w) (fetchRequest peer file) in
  (downloadFile env peer file w).2
  = with_trace (λ t, t ++ [EvGet (fetchRequest peer file) res]) w
  ∧ ((downloadFile env peer file w).1 = None
     ↔ fetch_succeeds env (trace w) peer file = true).
Proof.
  unfold downloadFile, clientGet, fsOp, fetch_succeeds.
  rewrite !bind_run. simpl. fold (fetchRequest peer file).
  destruct (net env (trace w) (fetchRequest peer file)) as [|st body]; simpl.
  { by split. }
  destruct (Z.eqb_spec st Go.StatusOK) as [->|Hne]; simpl; [|by split].
  rewrite !bind_run. simpl.
  destruct (disk env _ (OpMkdirAll file)); simpl; [|by split].
  rewrite !bind_run. simpl.
  destruct (disk env _ (OpCreate file)); simpl; [|by split].
  rewrite !bind_run. simpl.
  destruct (disk env _ (OpCopy file)); simpl; by split.
Qed.

Lemma pullFile_run (peer : PeerURL) (file : string) (w : World) :
  let res := net env (trace w) (fetchRequest peer file) in
  let w1 := with_trace (λ t, t ++ [EvGet (fetchRequest peer file) res]) w in
  (pullFile env peer file w).2
  = if fetch_succeeds env (trace w) peer file
    then with_fileList (Go.store file) w1 else w1.
Proof.
  destruct (downloadFile_run peer file w) as [Hw Hok]. simpl in *.
  unfold pullFile. rewrite bind_run, Hw.
  destruct (downloadFile env peer file w).1 as [err|].
  - destruct (fetch_succeeds env (trace w) peer file); [|done].
    by destruct Hok as [_ Hok]; specialize (Hok eq_refl).
  - destruct Hok as [Hok _]. by rewrite (Hok eq_refl).
Qed.

(** X3. A fetch makes exactly one call, a [/file] request with the
    fetch timeout, and touches nothing but the history and the
    inventory: the path is recorded when the answer has status 200 and
    creating the directory, creating the file and copying the body all
    succeed, and the inventory is left as it was otherwise. *)
Theorem fetch_records_only_on_success (peer : PeerURL) (file : string)
  (w : World) :
  let w' := (pullFile env peer file w).2 in
  let res := net env (trace w) (fetchRequest peer file) in
  trace w' = trace w ++ [EvGet (fetchRequest peer file) res]
  ∧ fileList w'
    = (if fetch_succeeds env (trace w) peer file
       then Go.store file (fileList w) else fileList w)
  ∧ (fetch_succeeds env (trace w) peer file = true →
     ∃ body, res = GetResp 200 body)
  ∧ ignoredNodes w' = ignoredNodes w
  ∧ goroutines w' = goroutines w
  ∧ syncAttempts w' = syncAttempts w
  ∧ syncCompleted w' = syncCompleted w.
Proof.
  simpl. rewrite pullFile_run.
  assert (fetch_succeeds env (trace w) peer file = true →
          ∃ body, net env (trace w) (fetchRequest peer file) = GetResp 200 body)
    as Hres.
  { unfold fetch_succeeds.
    destruct (net env (trace w) (fetchRequest peer file)) as [|st body];
      [done|].
    intros H. repeat (apply andb_true_iff in H as [H ?]).
    apply Z.eqb_eq in H as ->. by exists body. }
  by destruct (fetch_succeeds env (trace w) peer file).
Qed.

(** The pull loop over a list of paths. *)
Lemma pulls_run (peer : PeerURL) (l : list string) (w : World) :
  let w' := (forEach l (pullFile env peer) w).2 in
  (∃ evs, trace w' = trace w ++ evs ∧ calls evs = fetchRequest peer <$> l)
  ∧ dom (fileList w) ⊆ dom (fileList w')
  ∧ dom (fileList w') ⊆ dom (fileList w) ∪ list_to_set l
  ∧ (flags_true (fileList w) → flags_true (fileList w'))
  ∧ (serves_files env → dom (fileList w') = dom (fileList w) ∪ list_to_set l)
  ∧ ignoredNodes w' = ignoredNodes w
  ∧ goroutines w' = goroutines w
  ∧ syncAttempts w' = syncAttempts w
  ∧ syncCompleted w' = syncCompleted w.
Proof.
  revert w. induction l as [|f l IH]; intros w.
  { simpl. split; [exists []; by rewrite app_nil_r|].
    split; [done|]. split; [set_solver|]. split; [done|].
    split; [|done]. intros _. set_solver. }
  unfold forEach in *. rewrite forRange_cons.
  destruct (pullFile env peer f w).1.
  pose proof (pullFile_run peer f w) as Hp. simpl in Hp.
  set (w1 := (pullFile env peer f w).2) in *.
  destruct (IH w1) as ((evs & Htr & Hcalls) & Hlo & Hhi & Hfl & Hall
                       & Hi & Hg & Ha & Hc).
  assert (trace w1 = trace w ++
            [EvGet (fetchRequest peer f)
               (net env (trace w) (fetchRequest peer f))]
          ∧ ignoredNodes w1 = ignoredNodes w ∧ goroutines w1 = goroutines w
          ∧ syncAttempts w1 = syncAttempts w
          ∧ syncCompleted w1 = syncCompleted w
          ∧ (fileList w1 = fileList w ∨ fileList w1 = Go.store f (fileList w))
          ∧ (fetch_succeeds env (trace w) peer f = true →
             fileList w1 = Go.store f (fileList w)))
    as (Ht1 & Hi1 & Hg1 & Ha1 & Hc1 & Hf1 & Hs1).
  { rewrite Hp. destruct (fetch_succeeds env (trace w) peer f); simpl;
      repeat split; auto; done. }
  split; [|repeat split].
  - eexists (_ :: evs). split; [rewrite Htr, Ht1, <- app_assoc; done|].
    simpl. by rewrite Hcalls.
  - intros p Hx. apply Hlo. clear -Hx Hf1.
    destruct Hf1 as [-> | ->]; [done|]. rewrite dom_store. set_solver.
  - intros p Hx. apply Hhi in Hx. clear -Hx Hf1.
    destruct Hf1 as [E|E]; rewrite E in Hx; [|rewrite dom_store in Hx];
      set_solver.
  - intros H. apply Hfl. destruct Hf1 as [->| ->]; [done|].
    by apply flags_true_store.
  - intros Hsrv. rewrite (Hall Hsrv), Hs1, dom_store; [set_solver|].
    destruct Hsrv as [Hnet Hdisk]. unfold fetch_succeeds.
    destruct (Hnet (trace w) peer f) as [body Hb].
    unfold fetchRequest. rewrite Hb, !Hdisk. done.
  - congruence.
  - congruence.
  - congruence.
  - congruence.
Qed.

(** The notification loop over a list of paths. *)
Lemma notifies_run (peer : PeerURL) (l : list string) (w : World) :
  let w' := (forEach l (notifyPush env peer) w).2 in
  (∃ evs, trace w' = trace w ++ evs ∧ calls evs = notifyRequest peer <$> l)
  ∧ fileList w' = fileList w
  ∧ ignoredNodes w' = ignoredNodes w
  ∧ goroutines w' = goroutines w
  ∧ syncAttempts w' = syncAttempts w
  ∧ syncCompleted w' = syncCompleted w.
Proof.
  revert w. induction l as [|f l IH]; intros w.
  { simpl. split; [exists []; by rewrite app_nil_r | done]. }
  unfold forEach in *. rewrite forRange_cons.
  destruct (notifyPush env peer f w).1.
  assert ((notifyPush env peer f w).2
          = with_trace
              (λ t, t ++ [EvGet (notifyRequest peer f)
                            (net env (trace w) (notifyRequest peer f))]) w)
    as ->.
  { unfold notifyPush, clientGet. by rewrite !bind_run. }
  destruct (IH (with_trace
                  (λ t, t ++ [EvGet (notifyRequest peer f)
                                (net env (trace w) (notifyRequest peer f))]) w))
    as ((evs & Htr & Hcalls) & Hf & Hi & Hg & Ha & Hc).
  simpl in *. split; [|done].
  eexists (_ :: evs). split; [rewrite Htr, <- app_assoc; done|].
  simpl. by rewrite Hcalls.
Qed.

End Fetch.

Section Round.

Context (cfg : Config) (env : Env).

(** A round whose listing was answered and read to the end: the pull
    loop, then the notification loop, both over lists computed from the
    inventory as it was. *)
Lemma syncWithPeer_run (ip : string) (w : World) (status : Z) (body : Body) :
  net env (trace w) (syncRequest cfg ip) = GetResp status body →
  body_err body = false →
  let peer := peerURL_of cfg ip in
  let peerFiles := scanFiles (body_lines body) in
  let w0 := with_trace
              (λ t, t ++ [EvGet (syncRequest cfg ip) (GetResp status body)]) w in
  (syncWithPeer cfg env ip w).2
  = (forEach (filesToPush peerFiles (fileList w)) (notifyPush env peer)
       (forEach (filesToPull peerFiles w).1 (pullFile env peer) w0).2).2.
Proof.
  intros Hnet Herr. simpl. unfold syncWithPeer, clientGet.
  rewrite !bind_run. simpl. fold (syncRequest cfg ip).
  rewrite Hnet, Herr. rewrite !bind_run. simpl.
  by rewrite !filesToPull_run.
Qed.

Lemma elem_of_filesToPull (peerFiles : gmap string bool) (w : World)
  (path : string) :
  path ∈ (filesToPull peerFiles w).1
  ↔ path ∈ dom peerFiles ∧ Go.index (fileList w) path = false.
Proof.
  rewrite filesToPull_run. simpl.
  rewrite list_elem_of_filter, elem_of_range. tauto.
Qed.

Lemma elem_of_filesToPush (lines : list string) (fl : gmap string bool)
  (path : string) :
  path ∈ filesToPush (scanFiles lines) fl ↔ path ∈ dom fl ∧ path ∉ lines.
Proof.
  unfold filesToPush.
  rewrite list_elem_of_filter, elem_of_range,
    (flags_true_index_false _ _ (scanFiles_flags lines)), scanFiles_dom,
    elem_of_list_to_set.
  tauto.
Qed.

(** X4. A reconciler round whose listing is answered and read to the end
    only adds to the inventory, and only paths the peer listed; it keeps
    the stored flags true and leaves the quarantine set, the goroutine
    pool, the attempt counter and the completion flag alone.  When every
    fetch succeeds, the inventory afterwards holds exactly the local
    paths and the listed ones. *)
Theorem reconciler_inventory (ip : string) (w : World) (status : Z)
  (body : Body) :
  net env (trace w) (syncRequest cfg ip) = GetResp status body →
  body_err body = false →
  let w' := (syncWithPeer cfg env ip w).2 in
  let listed : gset string := list_to_set (body_lines body) in
  dom (fileList w) ⊆ dom (fileList w')
  ∧ dom (fileList w') ⊆ dom (fileList w) ∪ listed
  ∧ (flags_true (fileList w) → flags_true (fileList w'))
  ∧ (serves_files env → dom (fileList w') = dom (fileList w) ∪ listed)
  ∧ ignoredNodes w' = ignoredNodes w
  ∧ goroutines w' = goroutines w
  ∧ syncAttempts w' = syncAttempts w
  ∧ syncCompleted w' = syncCompleted w.
Proof.
  intros Hnet Herr. simpl. rewrite (syncWithPeer_run ip w status body Hnet Herr).
  set (peer := peerURL_of cfg ip).
  set (pf := scanFiles (body_lines body)).
  set (w0 := with_trace _ w).
  destruct (pulls_run env peer (filesToPull pf w).1 w0)
    as (_ & Hlo & Hhi & Hfl & Hall & Hi & Hg & Ha & Hc).
  destruct (notifies_run env peer (filesToPush pf (fileList w))
              (forEach (filesToPull pf w).1 (pullFile env peer) w0).2)
    as (_ & Hf' & Hi' & Hg' & Ha' & Hc').
  simpl in *. rewrite Hf', Hi', Hg', Ha', Hc'.
  assert (∀ p, p ∈ (filesToPull pf w).1 → p ∈ body_lines body) as Hsub.
  { intros p [Hp _]%elem_of_filesToPull. subst pf.
    rewrite scanFiles_dom in Hp. by apply elem_of_list_to_set in Hp. }
  assert (∀ p, p ∈ body_lines body →
               p ∈ dom (fileList w) ∨ p ∈ (filesToPull pf w).1) as Hcov.
  { intros p Hp. destruct (Go.index (fileList w) p) eqn:Hidx.
    - left. by apply index_true_elem_of_dom.
    - right. apply elem_of_filesToPull. split; [|done]. subst pf.
      rewrite scanFiles_dom. by apply elem_of_list_to_set. }
  repeat split; try done.
  - intros p Hp. apply Hhi in Hp. set_solver.
  - intros Hsrv. rewrite (Hall Hsrv). apply set_eq. intros p.
    rewrite !elem_of_union, !elem_of_list_to_set. split.
    + intros [?|?]; [by left | right; by apply Hsub].
    + intros [?|Hp]; [by left | by apply Hcov].
Qed.

(** X5. The calls of a reconciler round, in order: the listing call;
    then, when the listing is read to the end, one fetch for each listed
    path that the inventory lacks and, after all fetches, one
    notification for each local path that was not listed, no path twice.
    A listing that cannot be read to the end ends the round after the
    listing call, with nothing else changed. *)
Theorem reconciler_calls (ip : string) (w : World) (status : Z) (body : Body) :
  net env (trace w) (syncRequest cfg ip) = GetResp status body →
  let w' := (syncWithPeer cfg env ip w).2 in
  let peer := peerURL_of cfg ip in
  let toPull := (filesToPull (scanFiles (body_lines body)) w).1 in
  let toPush := filesToPush (scanFiles (body_lines body)) (fileList w) in
  (body_err body = true →
   w' = with_trace
          (λ t, t ++ [EvGet (syncRequest cfg ip) (GetResp status body)]) w)
  ∧ (body_err body = false →
     calls (since w w')
     = syncRequest cfg ip
         :: (fetchRequest peer <$> toPull) ++ (notifyRequest peer <$> toPush))
  ∧ NoDup toPull ∧ NoDup toPush
  ∧ (∀ path, path ∈ toPull
       ↔ path ∈ body_lines body ∧ Go.index (fileList w) path = false)
  ∧ (∀ path, path ∈ toPush
       ↔ path ∈ dom (fileList w) ∧ path ∉ body_lines body).
Proof.
  intros Hnet. simpl. split; [|split; [|split; [|split; [|split]]]].
  - intros Herr. unfold syncWithPeer, clientGet.
    rewrite !bind_run. simpl. fold (syncRequest cfg ip).
    by rewrite Hnet, Herr.
  - intros Herr. rewrite (syncWithPeer_run ip w status body Hnet Herr).
    set (peer := peerURL_of cfg ip).
    set (pf := scanFiles (body_lines body)).
    set (w0 := with_trace _ w).
    destruct (pulls_run env peer (filesToPull pf w).1 w0)
      as ((e1 & Ht1 & Hc1) & _).
    destruct (notifies_run env peer (filesToPush pf (fileList w))
                (forEach (filesToPull pf w).1 (pullFile env peer) w0).2)
      as ((e2 & Ht2 & Hc2) & _).
    simpl in *.
    rewrite (since_app w _
               ([EvGet (syncRequest cfg ip) (GetResp status body)] ++ e1 ++ e2)).
    + rewrite !calls_app, Hc1, Hc2. done.
    + rewrite Ht2, Ht1. subst w0. simpl. by rewrite <- !app_assoc.
  - rewrite filesToPull_run. simpl. apply NoDup_filter, NoDup_range.
  - apply NoDup_filter, NoDup_range.
  - intros path. rewrite elem_of_filesToPull, scanFiles_dom,
      elem_of_list_to_set. done.
  - intros path. apply elem_of_filesToPush.
Qed.

End Round.

(** ** The inventory over the life of the process *)

#[export] Instance inventory_step_preorder : PreOrder inventory_step.
Proof.
  split.
  - intros w. by split.
  - intros w1 w2 w3 [S1 I1] [S2 I2]. split; [set_solver | tauto].
Qed.

Lemma inventory_step_same (w w' : World) :
  fileList w' = fileList w → inventory_step w w'.
Proof. unfold inventory_step. by intros ->. Qed.

Lemma inventory_step_store (file : string) (w : World) :
  inventory_step w (with_fileList (Go.store file) w).
Proof.
  split; simpl.
  - rewrite dom_store. set_solver.
  - apply flags_true_store.
Qed.

Section Inventory.

Context (cfg : Config) (env : Env).

Lemma exec_inventory_step (a : Action) :
  keeps inventory_step (exec cfg env a).
Proof.
  destruct a; simpl; unfold_program; keeps_tac;
    try (by apply inventory_step_same);
    apply inventory_step_store.
Qed.

Lemma run_inventory_step (acts : list Action) :
  keeps inventory_step (run cfg env acts).
Proof. apply keeps_forEach; [tc_solve|]. apply exec_inventory_step. Qed.

(** X6. Over every sequence of steps of the process from its start, the
    inventory holds every path found on disk at startup, never loses a
    path, and stores the flag [true] for every path it holds. *)
Theorem inventory_never_shrinks (paths : list string)
  (acts acts' : list Action) :
  let w := (run cfg env acts (initWorld paths)).2 in
  let w' := (run cfg env acts' w).2 in
  list_to_set paths ⊆ dom (fileList w)
  ∧ dom (fileList w) ⊆ dom (fileList w')
  ∧ flags_true (fileList w)
  ∧ (∀ path, path ∈ dom (fileList w) → Go.index (fileList w') path = true).
Proof.
  intros w w'.
  destruct (run_inventory_step acts (initWorld paths)) as [Hsub Hfl].
  destruct (run_inventory_step acts' w) as [Hsub' Hfl'].
  fold w in Hsub, Hfl. fold w' in Hsub', Hfl'.
  assert (flags_true (fileList (initWorld paths))) as H0.
  { apply flags_true_foldl, flags_true_empty. }
  assert (dom (fileList (initWorld paths)) = list_to_set paths) as D0.
  { simpl. rewrite dom_foldl_store. set_solver. }
  rewrite D0 in Hsub. repeat split; auto.
  intros path Hp. apply flags_true_index; auto.
Qed.

(** X7. A [/sync] request that names a file answers 200 without calling
    out and without touching the inventory.  When the file is already
    held nothing changes; otherwise exactly one goroutine is started,
    aimed at the caller's host on this node's own port.  Once that
    goroutine has run, the pool is as before the request, one fetch has
    been sent to the caller, and the file is recorded exactly when the
    fetch succeeded. *)
Theorem sync_request_then_fetch (r : HttpRequest) (w : World) :
  let file := Go.Values_Get (req_query r) "file" in
  let caller := mkPeerURL (Str.remote_host (req_remoteAddr r)) (port cfg) in
  let res := handleSyncRequest cfg r w in
  let w2 := (schedule env (length (goroutines w)) res.2).2 in
  file ≠ EmptyString →
  resp_status res.1 = 200
  ∧ fileList res.2 = fileList w
  ∧ trace res.2 = trace w
  ∧ (file ∈ dom (fileList w) → res.2 = w)
  ∧ (file ∉ dom (fileList w) →
     goroutines res.2 = goroutines w ++ [mkTask caller file]
     ∧ goroutines w2 = goroutines w
     ∧ trace w2 = trace w ++ [EvGet (fetchRequest caller file)
                                (net env (trace w) (fetchRequest caller file))]
     ∧ fileList w2
       = if fetch_succeeds env (trace w) caller file
         then Go.store file (fileList w) else fileList w).
Proof.
  intros file caller res w2 Hfile. subst res w2.
  unfold handleSyncRequest. fold file.
  rewrite bool_decide_eq_false_2 by done. rewrite bind_run. simpl.
  destruct (Go.has_key (fileList w) file) eqn:Hkey.
  - apply has_key_dom in Hkey. simpl. repeat split; try done.
  - assert (file ∉ dom (fileList w)) as Hnot.
    { intros Hin%has_key_dom. congruence. }
    rewrite bind_run. simpl. fold caller.
    repeat split; try done.
    all: unfold schedule; rewrite bind_run; simpl;
      rewrite lookup_app_r by done; rewrite Nat.sub_diag; simpl;
      rewrite bind_run; simpl.
    all: change (runTask env (mkTask caller file))
           with (pullFile env caller file).
    all: rewrite pullFile_run; simpl.
    all: destruct (fetch_succeeds env (trace w) caller file); simpl;
      try done.
    all: by rewrite delete_middle, app_nil_r.
Qed.

End Inventory.

(** ** The caller's address and the peer list *)

Lemma drop_while_stop (p : Ascii.ascii → bool) (l1 l2 : list Ascii.ascii)
  (x : Ascii.ascii) :
  (∀ c, c ∈ l1 → p c = true) → p x = false →
  Str.drop_while p (l1 ++ x :: l2) = x :: l2.
Proof.
  intros H1 Hx. induction l1 as [|c l1 IH]; simpl.
  - by rewrite Hx.
  - rewrite H1 by (by left). apply IH. intros c' Hc'. apply H1. by right.
Qed.

Lemma drop_while_head (p : Ascii.ascii → bool) (l : list Ascii.ascii) :
  (∀ c, head l = Some c → p c = false) → Str.drop_while p l = l.
Proof. destruct l as [|c l]; [done|]. intros H. simpl. by rewrite H. Qed.

Lemma head_rev (l : list Ascii.ascii) : head (rev l) = last l.
Proof. rewrite rev_alt. apply (head_reverse l). Qed.

Lemma cut_last_colon_join (host port : list Ascii.ascii) :
  existsb Str.is_colon port = false →
  Str.cut_last_colon (host ++ Str.colon :: port) = host.
Proof.
  intros Hport. unfold Str.cut_last_colon.
  rewrite rev_app_distr. simpl rev. rewrite <- app_assoc. simpl app.
  assert (existsb Str.is_colon (rev port ++ Str.colon :: rev host) = true) as ->.
  { rewrite existsb_app. apply orb_true_iff. by right. }
  rewrite drop_while_stop.
  - simpl. apply rev_involutive.
  - intros c Hc. apply negb_true_iff.
    destruct (Str.is_colon c) eqn:E; [|done].
    assert (existsb Str.is_colon port = true); [|congruence].
    apply existsb_exists. exists c. split; [|done].
    apply in_rev, list_elem_of_In, Hc.
  - unfold Str.is_colon. by rewrite bool_decide_eq_true_2.
Qed.

Lemma trim_brackets_clean (host : list Ascii.ascii) :
  (∀ c, head host = Some c → Str.in_brackets c = false) →
  (∀ c, last host = Some c → Str.in_brackets c = false) →
  Str.trim_brackets host = host.
Proof.
  intros Hh Hl. unfold Str.trim_brackets.
  rewrite (drop_while_head _ host Hh), drop_while_head.
  - apply rev_involutive.
  - intros c. rewrite head_rev. apply Hl.
Qed.

Lemma trim_brackets_bracketed (host : list Ascii.ascii) :
  (∀ c, head host = Some c → Str.in_brackets c = false) →
  (∀ c, last host = Some c → Str.in_brackets c = false) →
  Str.trim_brackets (Str.lbracket :: host ++ [Str.rbracket]) = host.
Proof.
  intros Hh Hl. destruct host as [|c host']; [reflexivity|].
  remember (c :: host') as h eqn:Eh. unfold Str.trim_brackets.
  change (Str.drop_while Str.in_brackets (Str.lbracket :: h ++ [Str.rbracket]))
    with (Str.drop_while Str.in_brackets (h ++ [Str.rbracket])).
  rewrite (drop_while_head _ (h ++ [Str.rbracket])).
  2:{ intros c' Hc'. apply Hh. by subst h. }
  rewrite rev_unit.
  change (Str.drop_while Str.in_brackets (Str.rbracket :: rev h))
    with (Str.drop_while Str.in_brackets (rev h)).
  rewrite drop_while_head; [apply rev_involutive|].
  intros c'. rewrite head_rev. apply Hl.
Qed.

(** X8. The caller's host is recovered from [r.RemoteAddr]: for a host
    that neither begins nor ends with a square bracket and a port without
    a colon, both [host:port] and [[host]:port] give the host, colons
    inside the host included. *)
Theorem remote_host_of_address (host port : list Ascii.ascii) :
  existsb Str.is_colon port = false →
  (∀ c, head host = Some c → Str.in_brackets c = false) →
  (∀ c, last host = Some c → Str.in_brackets c = false) →
  Str.remote_host (String.string_of_list_ascii (host ++ Str.colon :: port))
  = String.string_of_list_ascii host
  ∧ Str.remote_host
      (String.string_of_list_ascii
         (Str.lbracket :: host ++ Str.rbracket :: Str.colon :: port))
    = String.string_of_list_ascii host.
Proof.
  intros Hport Hh Hl. unfold Str.remote_host.
  rewrite !String.list_ascii_of_string_of_list_ascii. split.
  - by rewrite cut_last_colon_join, trim_brackets_clean.
  - change (Str.lbracket :: host ++ Str.rbracket :: Str.colon :: port)
      with ((Str.lbracket :: host) ++ [Str.rbracket] ++ Str.colon :: port).
    rewrite app_assoc, cut_last_colon_join by done.
    by rewrite <- app_comm_cons, trim_brackets_bracketed.
Qed.

Lemma Split_nonempty (s : string) : Flags.Split s ≠ [].
Proof.
  destruct s as [|c s]; [done|]. simpl.
  case_bool_decide; [done|]. by destruct (Flags.Split s).
Qed.

Lemma Join_cons (x : string) (l : list string) :
  l ≠ [] → Flags.Join (x :: l) = x +:+ String Flags.comma (Flags.Join l).
Proof. by destruct l. Qed.

Lemma Join_Split (s : string) : Flags.Join (Flags.Split s) = s.
Proof.
  induction s as [|c s IH]; [done|]. simpl.
  pose proof (Split_nonempty s) as Hne.
  case_bool_decide as Hc.
  - rewrite Join_cons, IH by done. by rewrite Hc.
  - destruct (Flags.Split s) as [|x xs]; [done|].
    destruct xs as [|y xs]; simpl in *.
    + by rewrite IH.
    + by rewrite string_append_cons, IH.
Qed.

Lemma Split_length (s : string) : length (Flags.Split s) = S (commas s).
Proof.
  induction s as [|c s IH]; [done|]. simpl.
  pose proof (Split_nonempty s) as Hne.
  case_bool_decide; simpl; [by rewrite IH|].
  destruct (Flags.Split s); [done|]. simpl in *. done.
Qed.

Lemma Split_no_comma (s : string) :
  Forall (λ x, commas x = 0%nat) (Flags.Split s).
Proof.
  induction s as [|c s IH]; simpl; [by repeat constructor|].
  pose proof (Split_nonempty s) as Hne.
  case_bool_decide as Hc; [by constructor|].
  destruct (Flags.Split s) as [|x xs]; [done|].
  inversion IH as [|?? Hx Hxs]; subst. constructor; [|done].
  simpl. by rewrite bool_decide_eq_false_2.
Qed.

Lemma syncLoop_not_NoPeers (cfg : Config) (env : Env) (fuel : nat) (w : World) :
  (syncLoop cfg env fuel w).1 ≠ Some ExitNoPeers.
Proof.
  revert w. induction fuel as [|fuel IH]; intros w; [done|].
  rewrite syncLoop_unfold.
  destruct (syncAttempts w <? maxAttempts); [|done].
  destruct (attempt cfg env w).1; [done | apply IH].
Qed.

(** X9. The peer list read from the [-peers] flag: the empty string
    gives no peer; any other string gives one peer per comma plus one,
    none of them containing a comma, empty ones included, and joining
    them with commas gives the flag back.  [main] takes the no-peers
    exit, doing nothing, exactly when the flag is empty. *)
Theorem parsePeers_spec (peers : string) (port delay : Z) (env : Env)
  (fuel : nat) (w : World) :
  let cfg := Flags.config peers port delay in
  (peers = EmptyString → peerIPs cfg = [])
  ∧ (peers ≠ EmptyString →
     length (peerIPs cfg) = S (commas peers)
     ∧ Forall (λ ip, commas ip = 0%nat) (peerIPs cfg)
     ∧ Flags.Join (peerIPs cfg) = peers)
  ∧ ((main cfg env fuel w).1 = Some ExitNoPeers ↔ peers = EmptyString)
  ∧ (peers = EmptyString → main cfg env fuel w = (Some ExitNoPeers, w)).
Proof.
  simpl. unfold Flags.parsePeers, main. simpl. unfold Flags.parsePeers.
  destruct (decide (peers = EmptyString)) as [->|Hne].
  - repeat split; done.
  - rewrite (bool_decide_eq_false_2 (peers = EmptyString)) by done.
    pose proof (Split_nonempty peers) as Hs.
    rewrite bool_decide_eq_false_2
      by (destruct (Flags.Split peers); [done | simpl; lia]).
    repeat split; try done.
    + apply Split_length.
    + apply Split_no_comma.
    + apply Join_Split.
    + intros H. by apply syncLoop_not_NoPeers in H.
Qed.

(** ** How the round loop ends *)

Section Outcome.

Context (cfg : Config) (env : Env).

Lemma syncLoop_outcome (fuel : nat) (w : World) :
  0 <= syncAttempts w <= maxAttempts →
  (Z.to_nat (maxAttempts - syncAttempts w) < fuel)%nat →
  let r := syncLoop cfg env fuel w in
  ∃ evs,
    trace r.2 = trace w ++ evs
    ∧ syncAttempts r.2 = syncAttempts w + Z.of_nat (rounds evs)
    ∧ ((r.1 = Some ExitSynced
        ∧ verdicts evs = replicate (rounds evs - 1) false ++ [true]
        ∧ (1 <= rounds evs)%nat
        ∧ last evs = Some (EvSleep (Go.wrap64 (syncDelay cfg * Go.Second))))
       ∨ (r.1 = Some ExitGaveUp
          ∧ verdicts evs = replicate (rounds evs) false
          ∧ syncAttempts r.2 = maxAttempts
          ∧ last evs = Some (EvGiveUp maxAttempts))).
Proof.
  revert w. induction fuel as [|fuel IH]; intros w Ha Hfuel; [lia|].
  cbv zeta in *. rewrite syncLoop_unfold.
  destruct (Z.ltb_spec (syncAttempts w) maxAttempts) as [Hlt|Hge].
  - destruct (attempt_spec cfg env w) as (Ha1 & e1 & Ht1 & R1 & V1); [lia|].
    destruct (attempt cfg env w).1 eqn:Hok.
    + exists (e1 ++ [EvSleep (Go.wrap64 (syncDelay cfg * Go.Second))]).
      simpl. rewrite Ht1, rounds_app, verdicts_app, R1, V1, <- app_assoc.
      rewrite rounds_sleep, verdicts_sleep, rounds_nil, verdicts_nil.
      split; [done|]. split; [simpl; lia|]. left.
      repeat split; try done. apply last_snoc.
    + set (w' := with_trace (λ t, t ++ [EvSleep (3 * Go.Second)])
                   (attempt cfg env w).2).
      destruct (IH w') as (e2 & Ht2 & Hat2 & Hend); [simpl; lia..|].
      exists (e1 ++ EvSleep (3 * Go.Second) :: e2).
      rewrite Ht2, Hat2. simpl. rewrite Ht1, Ha1.
      rewrite rounds_app, verdicts_app, R1, V1, rounds_sleep, verdicts_sleep.
      split; [by rewrite <- !app_assoc|]. split; [lia|].
      destruct Hend as [(He & Hv & Hr & Hl)|(He & Hv & Hm & Hl)].
      * left. rewrite Hv. repeat split; try done; try lia.
        -- simpl. destruct (rounds e2) as [|n]; [lia|]. simpl.
           by rewrite Nat.sub_0_r.
        -- rewrite last_app, last_cons, Hl. done.
      * right. rewrite Hv. repeat split; try done.
        -- rewrite Hat2 in Hm. simpl in Hm. lia.
        -- rewrite last_app, last_cons, Hl. done.
  - exists [EvGiveUp maxAttempts]. simpl. split; [done|].
    unfold rounds, verdicts. simpl. split; [lia|]. right.
    repeat split; try done. lia.
Qed.

(** X10. Started with the attempt counter at zero and a non-empty peer
    list, [main] ends in one of two ways.  Either a check returned true:
    then all earlier verdicts were false, no round follows, and the last
    thing [main] does is sleep for the configured delay.  Or all
    [maxAttempts] verdicts were false: then the counter stands at
    [maxAttempts] and the last thing is the give-up line.  In both cases
    the attempt counter equals the number of rounds entered. *)
Theorem main_outcome (w : World) (fuel : nat) :
  peerIPs cfg ≠ [] →
  syncAttempts w = 0 →
  (Z.to_nat maxAttempts < fuel)%nat →
  let r := main cfg env fuel w in
  let evs := since w r.2 in
  syncAttempts r.2 = Z.of_nat (rounds evs)
  ∧ ((r.1 = Some ExitSynced
      ∧ verdicts evs = replicate (rounds evs - 1) false ++ [true]
      ∧ (1 <= rounds evs)%nat
      ∧ last evs = Some (EvSleep (Go.wrap64 (syncDelay cfg * Go.Second))))
     ∨ (r.1 = Some ExitGaveUp
        ∧ verdicts evs = replicate (Z.to_nat maxAttempts) false
        ∧ Z.of_nat (rounds evs) = maxAttempts
        ∧ last evs = Some (EvGiveUp maxAttempts))).
Proof.
  intros Hpeers Ha Hfuel. simpl. unfold main.
  rewrite bool_decide_eq_false_2 by (by destruct (peerIPs cfg)).
  destruct (syncLoop_outcome fuel w) as (evs & Ht & Hat & Hend).
  { rewrite Ha. unfold maxAttempts. lia. }
  { by rewrite Ha, Z.sub_0_r. }
  simpl in *. rewrite (since_app _ _ _ Ht), Hat, Ha. split; [lia|].
  destruct Hend as [H|(He & Hv & Hm & Hl)]; [by left | right].
  rewrite Hat, Ha in Hm. simpl in Hm.
  assert (rounds evs = Z.to_nat maxAttempts) as Hr by lia.
  rewrite Hv, Hr. repeat split; try done.
Qed.

(** The calls of a pass, against the peer list. *)
Lemma CheckPass_calls l c w c' w' evs :
  CheckPass cfg env l c w c' w' evs →
  calls evs `sublist_of` (checkRequest cfg <$> l).
Proof.
  induction 1 as [|ip l c w c1 w1 e1 c2 w2 e2 Hs _ IH]; [done|].
  rewrite calls_app, fmap_cons.
  destruct (CheckStep_events _ _ _ _ _ _ _ _ Hs)
    as [->|[_ [->|(st & b & ->)]]]; simpl.
  - by apply sublist_cons.
  - by apply sublist_skip.
  - by apply sublist_skip.
Qed.

Lemma CheckPass_ignored_mono l c w c' w' evs :
  CheckPass cfg env l c w c' w' evs →
  dom (ignoredNodes w) ⊆ dom (ignoredNodes w').
Proof.
  intros Hp. rewrite (CheckPass_ignored _ _ _ _ _ _ _ _ Hp), dom_foldl_store.
  set_solver.
Qed.

(** X11. A pass of the checker sends at most one call per entry of the
    peer list, in the order of the list, each the checker's listing
    request to that entry; it reads the inventory without changing it,
    leaves the goroutine pool, the attempt counter and the completion
    flag alone, and only adds to the quarantine set. *)
Theorem checker_footprint (w : World) :
  let w' := (checkAllNodesInSync cfg env w).2 in
  calls (since w w') `sublist_of` (checkRequest cfg <$> peerIPs cfg)
  ∧ (length (calls (since w w')) <= length (peerIPs cfg))%nat
  ∧ fileList w' = fileList w
  ∧ goroutines w' = goroutines w
  ∧ syncAttempts w' = syncAttempts w
  ∧ syncCompleted w' = syncCompleted w
  ∧ dom (ignoredNodes w) ⊆ dom (ignoredNodes w').
Proof.
  destruct (checkAllNodesInSync_pass cfg env w) as (c & w1 & evs & Hp & Heq).
  simpl in *. rewrite Heq. simpl.
  pose proof (CheckPass_trace _ _ _ _ _ _ _ _ Hp) as Htr.
  pose proof (CheckPass_calls _ _ _ _ _ _ Hp) as Hsub.
  destruct (CheckPass_frame _ _ _ _ _ _ _ _ Hp) as (Hf & Hc & Ha & Hg).
  rewrite (since_app w _ (evs ++ [EvStatus (Z.of_nat (length (peerIPs cfg))) c
                                     (Go.len (ignoredNodes w1))])).
  2:{ simpl. rewrite Htr. by rewrite app_assoc. }
  rewrite calls_app. simpl. rewrite app_nil_r.
  repeat split; try done.
  - apply sublist_length in Hsub. by rewrite length_fmap in Hsub.
  - by apply CheckPass_ignored_mono in Hp.
Qed.

Lemma CheckPass_unreachable l c w c' w' evs :
  unreachable env →
  CheckPass cfg env l c w c' w' evs →
  c' = c
  ∧ dom (ignoredNodes w') = dom (ignoredNodes w) ∪ list_to_set l.
Proof.
  intros Hdown. induction 1 as [|ip l c w c1 w1 e1 c2 w2 e2 Hs _ IH].
  { split; [done | set_solver]. }
  destruct IH as [-> ->].
  inversion Hs as [Hig|Hig Hnet|st b Hig Hnet]; subst.
  - apply index_true_elem_of_dom in Hig. split; [done | set_solver].
  - split; [done|]. simpl. rewrite dom_store. set_solver.
  - by rewrite Hdown in Hnet.
Qed.

(** X12. When no peer can be reached, a pass of the checker finds nobody
    in sync and leaves every configured peer quarantined; it returns
    true exactly when the quarantine set is then at least as large as
    the peer list is long, which it is whenever no peer is listed
    twice. *)
Theorem unreachable_cluster_check (w : World) :
  unreachable env →
  let r := checkAllNodesInSync cfg env w in
  dom (ignoredNodes r.2) = dom (ignoredNodes w) ∪ list_to_set (peerIPs cfg)
  ∧ inSyncReports (fileList w) (since w r.2) = 0
  ∧ (r.1 = true
     ↔ (length (peerIPs cfg) <= size (dom (ignoredNodes r.2)))%nat)
  ∧ (NoDup (peerIPs cfg) → r.1 = true).
Proof.
  intros Hdown.
  destruct (checkAllNodesInSync_pass cfg env w) as (c & w1 & evs & Hp & Heq).
  simpl in *. rewrite Heq. simpl.
  pose proof (CheckPass_trace _ _ _ _ _ _ _ _ Hp) as Htr.
  pose proof (CheckPass_count _ _ _ _ _ _ _ _ Hp) as Hc.
  destruct (CheckPass_unreachable _ _ _ _ _ _ Hdown Hp) as [-> Hdom].
  rewrite (since_app w _ (evs ++ [EvStatus (Z.of_nat (length (peerIPs cfg))) 0
                                     (Go.len (ignoredNodes w1))])).
  2:{ simpl. rewrite Htr. by rewrite app_assoc. }
  assert (inSyncReports (fileList w) evs = 0) as Hz.
  { unfold inSyncReports in *. lia. }
  rewrite inSyncReports_app, Hz, len_dom, Z.leb_le.
  split; [done|]. split; [done|]. split; [lia|].
  intros Hnd.
  assert (size (list_to_set (peerIPs cfg) : gset string)
          ≤ size (dom (ignoredNodes w1)))%nat as Hsz.
  { apply subseteq_size. rewrite Hdom. set_solver. }
  rewrite size_list_to_set in Hsz by done. lia.
Qed.

End Outcome.

(** ** The listing in any order *)

Lemma scanFiles_same_paths (l1 l2 : list string) :
  (∀ path, path ∈ l1 ↔ path ∈ l2) → scanFiles l1 = scanFiles l2.
Proof.
  intros H. apply map_eq. intros k. unfold scanFiles.
  rewrite !lookup_foldl_store.
  destruct (decide (k ∈ l1)) as [H1|H1], (decide (k ∈ l2)) as [H2|H2];
    try done.
  - by apply H in H1.
  - by apply H in H2.
Qed.

(** X13. Go visits the keys of the inventory in no fixed order when it
    writes a [/files] body.  In whatever order the paths are written,
    one per line, a reader that scans the whole body gets the same
    snapshot, equal to the inventory, provided the paths are free of
    newlines, do not end in a carriage return and are shorter than the
    scanner's token limit; lines repeated or reordered change
    nothing. *)
Theorem listing_order_irrelevant (fl : gmap string bool) (paths : list string) :
  flags_true fl →
  paths ≡ₚ Go.range fl →
  Forall line_safe paths →
  let body :=
    Scan.scanText
      (foldr (λ file out, file +:+ String (Ascii.ascii_of_nat 10) out)
             EmptyString paths) in
  body_err body = false
  ∧ body_lines body = paths
  ∧ scanFiles (body_lines body) = fl
  ∧ ∀ lines, (∀ path, path ∈ lines ↔ path ∈ paths) → scanFiles lines = fl.
Proof.
  intros Hfl Hperm Hsafe. simpl. rewrite scan_listing by done. simpl.
  assert (∀ lines, (∀ path, path ∈ lines ↔ path ∈ paths) →
                   scanFiles lines = fl) as Hany.
  { intros lines Hl. rewrite <- (scanFiles_range fl Hfl).
    apply scanFiles_same_paths. intros path. rewrite Hl.
    by rewrite Hperm. }
  repeat split; try done. by apply Hany.
Qed.

(** ** More concrete runs *)

(** A path with a newline in it does not survive the listing: the
    reader sees two paths. *)
Example newline_in_path_splits :
  let w := initWorld [String "a" (String Scan.newline "b")] in
  body_lines (Scan.scanText (resp_body (handleFileList bareRequest w).1))
  = ["a"; "b"]%string.
Proof. vm_compute. done. Qed.

Example split_keeps_empty_peers :
  Flags.parsePeers "10.0.0.2,,10.0.0.3,"
  = ["10.0.0.2"; ""; "10.0.0.3"; ""]%string.
Proof. reflexivity. Qed.

(** X1 on an inventory of two paths. *)
Lemma listing_round_trip_witness :
  let w := initWorld ["x"; "dir/y"]%string in
  let res := handleFileList bareRequest w in
  let body := Scan.scanText (resp_body res.1) in
  resp_status res.1 = 200
  ∧ body_err body = false
  ∧ body_lines body = Go.range (fileList w)
  ∧ scanFiles (body_lines body) = fileList w
  ∧ res.2 = w.
Proof.
  apply (listing_round_trip bareRequest (initWorld ["x"; "dir/y"]%string)).
  - apply (bool_decide_unpack _). vm_compute. exact I.
  - intros path Hp.
    assert (path = "x"%string ∨ path = "dir/y"%string) as [-> | ->].
    { simpl in Hp. rewrite !dom_store in Hp. set_solver. }
    all: repeat split; try (vm_compute; congruence); vm_compute; done.
Defined.

(** X2 on two snapshots with the same paths in different order. *)
Lemma filesMatch_symmetric_witness :
  let m1 := scanFiles ["x"; "y"]%string in
  let m2 := scanFiles ["y"; "x"; "y"]%string in
  filesMatch m1 m2 = filesMatch m2 m1
  ∧ filesMatch m1 m1 = true
  ∧ (filesMatch m1 m2 = true → m1 = m2).
Proof.
  apply (filesMatch_symmetric (scanFiles ["x"; "y"]%string)
           (scanFiles ["y"; "x"; "y"]%string)).
  - apply (bool_decide_unpack _). vm_compute. exact I.
  - apply (bool_decide_unpack _). vm_compute. exact I.
Defined.

(** X4 on a node holding [x] and [y] against a peer that lists [y] and
    [z] and serves every file. *)
Lemma reconciler_inventory_witness :
  let env := netServing ["y"; "z"]%string in
  let w := initWorld ["x"; "y"]%string in
  let w' := (syncWithPeer onePeer env "10.0.0.2" w).2 in
  let listed : gset string := list_to_set ["y"; "z"]%string in
  dom (fileList w) ⊆ dom (fileList w')
  ∧ dom (fileList w') ⊆ dom (fileList w) ∪ listed
  ∧ (flags_true (fileList w) → flags_true (fileList w'))
  ∧ (serves_files env → dom (fileList w') = dom (fileList w) ∪ listed)
  ∧ ignoredNodes w' = ignoredNodes w
  ∧ goroutines w' = goroutines w
  ∧ syncAttempts w' = syncAttempts w
  ∧ syncCompleted w' = syncCompleted w.
Proof.
  apply (reconciler_inventory onePeer (netServing ["y"; "z"]%string)
           "10.0.0.2" (initWorld ["x"; "y"]%string) 200
           (mkBody ["y"; "z"]%string false));
    reflexivity.
Defined.

(** X5 on the same round. *)
Lemma reconciler_calls_witness :
  let env := netServing ["y"; "z"]%string in
  let w := initWorld ["x"; "y"]%string in
  let body := mkBody ["y"; "z"]%string false in
  let w' := (syncWithPeer onePeer env "10.0.0.2" w).2 in
  let peer := peerURL_of onePeer "10.0.0.2" in
  let toPull := (filesToPull (scanFiles (body_lines body)) w).1 in
  let toPush := filesToPush (scanFiles (body_lines body)) (fileList w) in
  (body_err body = true →
   w' = with_trace
          (λ t, t ++ [EvGet (syncRequest onePeer "10.0.0.2")
                        (GetResp 200 body)]) w)
  ∧ (body_err body = false →
     calls (since w w')
     = syncRequest onePeer "10.0.0.2"
         :: (fetchRequest peer <$> toPull) ++ (notifyRequest peer <$> toPush))
  ∧ NoDup toPull ∧ NoDup toPush
  ∧ (∀ path, path ∈ toPull
       ↔ path ∈ body_lines body ∧ Go.index (fileList w) path = false)
  ∧ (∀ path, path ∈ toPush
       ↔ path ∈ dom (fileList w) ∧ path ∉ body_lines body).
Proof.
  apply (reconciler_calls onePeer (netServing ["y"; "z"]%string)
           "10.0.0.2" (initWorld ["x"; "y"]%string) 200
           (mkBody ["y"; "z"]%string false)).
  reflexivity.
Defined.

(** X7 on a request for a file the node lacks. *)
Lemma sync_request_then_fetch_witness :
  let r := mkHttpRequest {["file"%string := ["z"%string]]} "10.0.0.2:40000" in
  let w := initWorld ["x"%string] in
  let env := netServing [] in
  let file := Go.Values_Get (req_query r) "file" in
  let caller := mkPeerURL (Str.remote_host (req_remoteAddr r)) (port onePeer) in
  let res := handleSyncRequest onePeer r w in
  let w2 := (schedule env (length (goroutines w)) res.2).2 in
  resp_status res.1 = 200
  ∧ fileList res.2 = fileList w
  ∧ trace res.2 = trace w
  ∧ (file ∈ dom (fileList w) → res.2 = w)
  ∧ (file ∉ dom (fileList w) →
     goroutines res.2 = goroutines w ++ [mkTask caller file]
     ∧ goroutines w2 = goroutines w
     ∧ trace w2 = trace w ++ [EvGet (fetchRequest caller file)
                                (net env (trace w) (fetchRequest caller file))]
     ∧ fileList w2
       = if fetch_succeeds env (trace w) caller file
         then Go.store file (fileList w) else fileList w).
Proof.
  apply (sync_request_then_fetch onePeer (netServing [])
           (mkHttpRequest {["file"%string := ["z"%string]]} "10.0.0.2:40000")
           (initWorld ["x"%string])).
  vm_compute. discriminate.
Defined.

(** X8 on the loopback address of IPv6. *)
Lemma remote_host_of_address_witness :
  Str.remote_host "::1:40000" = "::1"%string
  ∧ Str.remote_host "[::1]:40000" = "::1"%string.
Proof.
  apply (remote_host_of_address
           (String.list_ascii_of_string "::1")
           (String.list_ascii_of_string "40000")).
  - reflexivity.
  - intros c [= <-]. reflexivity.
  - intros c [= <-]. reflexivity.
Defined.

(** X10 on a run that never converges. *)
Lemma main_outcome_witness :
  let r := main onePeer (netServing ["other"%string]) 6
             (initWorld ["x"%string]) in
  let evs := since (initWorld ["x"%string]) r.2 in
  syncAttempts r.2 = Z.of_nat (rounds evs)
  ∧ ((r.1 = Some ExitSynced
      ∧ verdicts evs = replicate (rounds evs - 1) false ++ [true]
      ∧ (1 <= rounds evs)%nat
      ∧ last evs = Some (EvSleep (Go.wrap64 (syncDelay onePeer * Go.Second))))
     ∨ (r.1 = Some ExitGaveUp
        ∧ verdicts evs = replicate (Z.to_nat maxAttempts) false
        ∧ Z.of_nat (rounds evs) = maxAttempts
        ∧ last evs = Some (EvGiveUp maxAttempts))).
Proof.
  apply (main_outcome onePeer (netServing ["other"%string])
           (initWorld ["x"%string]) 6).
  - discriminate.
  - reflexivity.
  - vm_compute. lia.
Defined.

(** X12 on the peer list with one address, unreachable. *)
Lemma unreachable_cluster_check_witness :
  let w := initWorld ["x"%string] in
  let r := checkAllNodesInSync onePeer netDown w in
  dom (ignoredNodes r.2) = dom (ignoredNodes w) ∪ list_to_set (peerIPs onePeer)
  ∧ inSyncReports (fileList w) (since w r.2) = 0
  ∧ (r.1 = true
     ↔ (length (peerIPs onePeer) <= size (dom (ignoredNodes r.2)))%nat)
  ∧ (NoDup (peerIPs onePeer) → r.1 = true).
Proof.
  apply (unreachable_cluster_check onePeer netDown (initWorld ["x"%string])).
  intros tr rq. reflexivity.
Defined.

(** X13 on the two orders of an inventory of two paths. *)
Lemma listing_order_irrelevant_witness :
  let fl := scanFiles ["x"; "dir/y"]%string in
  let paths := ["x"; "dir/y"]%string in
  let body :=
    Scan.scanText
      (foldr (λ file out, file +:+ String (Ascii.ascii_of_nat 10) out)
             EmptyString paths) in
  body_err body = false
  ∧ body_lines body = paths
  ∧ scanFiles (body_lines body) = fl
  ∧ ∀ lines, (∀ path, path ∈ lines ↔ path ∈ paths) → scanFiles lines = fl.
Proof.
  apply (listing_order_irrelevant (scanFiles ["x"; "dir/y"]%string)
           ["x"; "dir/y"]%string).
  - apply (bool_decide_unpack _). vm_compute. exact I.
  - apply (bool_decide_unpack _). vm_compute. exact I.
  - repeat constructor; try (vm_compute; congruence); vm_compute; done.
Defined.

(** ** One failed check per peer *)

Lemma failed_checks_app (e1 e2 : list Event) :
  failed_checks (e1 ++ e2) = failed_checks e1 ++ failed_checks e2.
Proof. apply omap_app. Qed.

Lemma no_failed_checks (evs : list Event) :
  Forall no_failed_check evs → failed_checks evs = [].
Proof.
  induction 1 as [|e evs He _ IH]; [done|].
  change (e :: evs) with ([e] ++ evs). by rewrite failed_checks_app, He, IH.
Qed.

Lemma checked_once_quiet (w w' : World) :
  adds no_failed_check w w' → ignoredNodes w' = ignoredNodes w →
  checked_once w → checked_once w'.
Proof.
  intros (evs & Htr & F) Hig [Hnd Hall]. unfold checked_once.
  rewrite Htr, failed_checks_app, (no_failed_checks _ F), app_nil_r, Hig.
  by split.
Qed.

Lemma adds_log (P : Event → Prop) (e : Event) (w : World) :
  P e → adds P w (with_trace (λ t, t ++ [e]) w).
Proof. intros H. exists [e]. split; [done | by constructor]. Qed.

Lemma no_failed_check_timeout (timeout : Z) (peer : PeerURL) (ep : Endpoint)
  (res : HttpResult) :
  timeout ≠ checkTimeout →
  no_failed_check (EvGet (mkRequest timeout peer ep) res).
Proof.
  intros H. unfold no_failed_check. destruct ep, res; try done.
  simpl. apply Z.eqb_neq in H. by rewrite H.
Qed.

Section CheckedOnce.

Context (cfg : Config) (env : Env).

Lemma exec_no_failed_check (a : Action) :
  a ≠ ActCheckAll → keeps (adds no_failed_check) (exec cfg env a).
Proof.
  destruct a; try done; intros _; simpl; unfold_program; keeps_tac;
    try (by apply adds_silent);
    apply adds_log;
    first [ done | by apply no_failed_check_timeout ].
Qed.

Lemma CheckStep_checked_once ip c w c' w' evs :
  CheckStep cfg env ip c w c' w' evs → checked_once w → checked_once w'.
Proof.
  intros Hs [Hnd Hall].
  inversion Hs as [Hig|Hig Hnet|st b Hig Hnet]; subst; [done| |].
  - unfold checked_once. simpl. rewrite <- app_assoc, failed_checks_app.
    change (failed_checks [EvGet (checkRequest cfg ip) GetErr] ++ _)
      with [ip]. simpl.
    change (failed_checks ([EvGet (checkRequest cfg ip) GetErr] ++ [EvIgnore ip]))
      with [ip].
    split.
    + apply NoDup_app. split; [done|]. split; [|apply NoDup_singleton].
      intros p Hp Hin%list_elem_of_singleton. subst p.
      apply Hall in Hp. congruence.
    + intros p [Hp|Hp%list_elem_of_singleton]%elem_of_app;
        rewrite index_store.
      * rewrite (Hall p Hp). apply orb_true_r.
      * subst p. by rewrite bool_decide_eq_true_2.
  - unfold checked_once. simpl. rewrite failed_checks_app.
    change (failed_checks [EvGet (checkRequest cfg ip) (GetResp st b)])
      with (@nil string).
    rewrite app_nil_r. by split.
Qed.

Lemma CheckPass_checked_once l c w c' w' evs :
  CheckPass cfg env l c w c' w' evs → checked_once w → checked_once w'.
Proof.
  induction 1 as [|ip l c w c1 w1 e1 c2 w2 e2 Hs _ IH]; [done|].
  intros H. by apply IH, (CheckStep_checked_once _ _ _ _ _ _ Hs).
Qed.

Lemma exec_checked_once (a : Action) (w : World) :
  checked_once w → checked_once (exec cfg env a w).2.
Proof.
  intros H.
  assert (a ≠ ActCheckAll → checked_once (exec cfg env a w).2) as Hother.
  { intros Hne.
    apply (checked_once_quiet w); [|by apply exec_same_ignoredNodes|done].
    by apply exec_no_failed_check. }
  destruct a; try (by apply Hother).
  simpl. rewrite bind_run. simpl.
  destruct (checkAllNodesInSync_pass cfg env w) as (c & w1 & evs & Hp & Heq).
  simpl in Heq. rewrite Heq. simpl.
  apply (CheckPass_checked_once _ _ _ _ _ _ Hp) in H as [Hnd Hall].
  unfold checked_once. simpl. rewrite failed_checks_app.
  change (failed_checks [EvStatus _ _ _]) with (@nil string).
  rewrite app_nil_r. by split.
Qed.

(** X14. Over every sequence of steps of the process from its start, no
    address has two failed check calls in the history, and every address
    with one is quarantined: the checker stops calling a peer at its
    first failure, for good. *)
Theorem peer_checked_until_first_failure (paths : list string)
  (acts : list Action) :
  let w := (run cfg env acts (initWorld paths)).2 in
  NoDup (failed_checks (trace w))
  ∧ ∀ ip, ip ∈ failed_checks (trace w) →
      quarantined w ip ∧ (shouldIgnoreNode ip w).1 = true.
Proof.
  assert (∀ w, checked_once w → checked_once (run cfg env acts w).2) as Hrun.
  { induction acts as [|a acts IH]; intros w H; [done|].
    rewrite run_cons. by apply IH, exec_checked_once. }
  destruct (Hrun (initWorld paths)) as [Hnd Hall].
  { split; [apply NoDup_nil_2 | by intros ip Hip%elem_of_nil]. }
  simpl. split; [done|]. intros ip Hip. specialize (Hall ip Hip).
  split; [by apply index_true_elem_of_dom | done].
Qed.

End CheckedOnce.

(** With one unreachable peer listed twice, five rounds of [main] hold a
    single failed check call. *)
Example failed_checks_of_exhausted_run :
  failed_checks (trace (main samePeerTwice netDown 6 (initWorld [])).2)
  = ["10.0.0.2"%string].
Proof. vm_compute. done. Qed.

(** ** The pass against the specification, on concrete runs *)

Example spec_pass_two_peers :
  let p := Spec.pass twoPeers (netParsing ["x"%string])
             (peerIPs twoPeers) {["x"%string]} ∅ [] in
  Spec.inSync p = 1
  ∧ Spec.quarantine p = {[" 10.0.0.3"%string]}
  ∧ calls (Spec.history p)
    = [checkRequest twoPeers " 10.0.0.3"; checkRequest twoPeers "10.0.0.2"].
Proof. repeat split; vm_compute; reflexivity. Qed.

(** C1 on that run: one peer quarantined, one in sync, two configured. *)
Lemma checkAllNodesInSync_decision_witness :
  let w := initWorld ["x"%string] in
  let env := netParsing ["x"%string] in
  let r := checkAllNodesInSync twoPeers env w in
  let total := Z.of_nat (length (peerIPs twoPeers)) in
  let spec := Spec.pass twoPeers env (peerIPs twoPeers) (dom (fileList w))
                (dom (ignoredNodes w)) (trace w) in
  let inSync := Spec.inSync spec in
  let quarantinedCount := Z.of_nat (size (dom (ignoredNodes r.2))) in
  (r.1 = true ↔ inSync + quarantinedCount >= total)
  ∧ dom (ignoredNodes r.2) = Spec.quarantine spec
  ∧ trace r.2 = Spec.history spec ++ [EvStatus total inSync quarantinedCount]
  ∧ fileList r.2 = fileList w
  ∧ inSync = inSyncReports (fileList w) (since w r.2)
  ∧ ∀ rq res, EvGet rq res ∈ since w r.2 →
      ∃ ip, ip ∈ peerIPs twoPeers ∧ Go.index (ignoredNodes w) ip = false
            ∧ rq = checkRequest twoPeers ip.
Proof.
  apply (checkAllNodesInSync_decision twoPeers (netParsing ["x"%string])
           (initWorld ["x"%string])).
  apply (bool_decide_unpack _). vm_compute. exact I.
Defined.

(** C4 as worded fails: a peer entry with a space in it is quarantined
    by the first pass although its call failed in [url.Parse], before
    any connection was tried. *)
Lemma quarantined_without_connection_failure :
  ¬ quarantine_needs_connection_failure spacedPeer (netParsing [])
      (initWorld []).
Proof.
  intros H. specialize (H " 10.0.0.3"%string). cbv zeta in H.
  destruct H as [_ H].
  - unfold quarantined. apply elem_of_dom. vm_compute. eauto.
  - unfold quarantined. simpl. set_solver.
  - vm_compute in H. discriminate H.
Qed.

(** A final line without newline that fills the scanner's buffer
    exactly is still a line; with any byte after it, a newline included,
    the scan ends in error. *)
Lemma scan_at_limit (cur : string) (c : Ascii.ascii) (rest : string) :
  Z.of_nat (String.length cur) = Scan.MaxScanTokenSize →
  Scan.scan cur EmptyString = mkBody [Scan.dropCR cur] false
  ∧ Scan.scan cur (String c rest) = mkBody [] true.
Proof.
  intros Hlen. split.
  - simpl. rewrite Hlen, Z.ltb_irrefl.
    rewrite bool_decide_eq_false_2; [done|]. intros ->.
    vm_compute in Hlen. discriminate Hlen.
  - rewrite scan_cons, Hlen, Z.leb_refl. done.
Qed.
